(** * First_RAG: multi-query retrieval, merge and batch indexing

    A shallow embedding of the retrieval script of the repository
    (query expansion, fan-out search, deduplicate-and-rank merge, batch
    indexing) together with the properties stated for it.

    Conventions of the embedding.
    - A JavaScript string is the list of its UTF-16 code units.
    - A relevance score is a finite number.  On finite doubles the test
      [x < y] and the sign of [y - x] agree with the order of the numbers
      the doubles denote, so scores are rationals ([Q]).
    - An [async] function that can reject is a function into [Result];
      [try { .. } catch { .. }] is a [match] on that result.
    - The text written to the console is not kept, but the conversion of a
      value inside a template literal is: it can throw ([logged]).
    - The hosted services (text generation, embedding, vector search) are
      not part of the repository; they are fields of a [Services] record
      and every theorem holds for all of them. *)

From Stdlib Require Import String Ascii List Bool Arith ZArith NArith QArith.
From Stdlib Require Import Lia Lqa Sorted Permutation.
Import ListNotations.
Close Scope Q_scope.

Set Implicit Arguments.
Set Warnings "-register-all".

(** ** JavaScript runtime values used by the script *)

Module JS.

(** Strings: sequences of UTF-16 code units. *)
Definition JSString : Type := list N.

(** A literal of the source text (all literals of the script are ASCII). *)
Definition str (s : string) : JSString :=
  map N_of_ascii (list_ascii_of_string s).

Definition dq : JSString := [34%N].
Definition nl : JSString := [10%N].
Definition backtick : JSString := [96%N].

Fixpoint String_eqb (a b : JSString) : bool :=
  match a, b with
  | [], [] => true
  | x :: a', y :: b' => N.eqb x y && String_eqb a' b'
  | _, _ => false
  end.

Fixpoint startsWith (s p : JSString) : bool :=
  match p, s with
  | [], _ => true
  | _ :: _, [] => false
  | x :: p', y :: s' => N.eqb x y && startsWith s' p'
  end.

(** [String.prototype.substring(start, end)]: both indices are clamped to
    [0, length] and swapped when out of order. *)
Definition substring (s : JSString) (start end_ : Z) : JSString :=
  let len := Z.of_nat (length s) in
  let finalStart := Z.min (Z.max start 0) len in
  let finalEnd := Z.min (Z.max end_ 0) len in
  let from := Z.min finalStart finalEnd in
  let to := Z.max finalStart finalEnd in
  firstn (Z.to_nat (to - from)) (skipn (Z.to_nat from) s).

(** White space and line terminators of ECMAScript, as [trim] sees them. *)
Definition isWhiteSpace (c : N) : bool :=
  existsb (N.eqb c)
    [9; 10; 11; 12; 13; 32; 160; 5760; 8232; 8233; 8239; 8287; 12288; 65279]%N
  || (N.leb 8192 c && N.leb c 8202).

Fixpoint trimStart (s : JSString) : JSString :=
  match s with
  | [] => []
  | c :: s' => if isWhiteSpace c then trimStart s' else s
  end.

Definition trim (s : JSString) : JSString :=
  rev (trimStart (rev (trimStart s))).

(** [s.replace(/p1|p2|../g, '')] for literal alternatives: scanning from the
    left, at each position the first alternative that matches is removed
    and the scan resumes after it.  [skip] counts the code units of a match
    still to be dropped. *)
Fixpoint removeAll_from (pats : list JSString) (skip : nat) (s : JSString)
  : JSString :=
  match s with
  | [] => []
  | c :: s' =>
      match skip with
      | S n => removeAll_from pats n s'
      | O =>
          match find (startsWith s) pats with
          | Some p => removeAll_from pats (pred (length p)) s'
          | None => c :: removeAll_from pats 0 s'
          end
      end
  end.

Definition removeAll (pats : list JSString) (s : JSString) : JSString :=
  removeAll_from pats 0 s.

(** [Array.prototype.slice(start, end)] with its relative (negative)
    indices. *)
Definition slice (A : Type) (l : list A) (start end_ : Z) : list A :=
  let len := Z.of_nat (length l) in
  let k := if (start <? 0)%Z then Z.max (len + start) 0 else Z.min start len in
  let final := if (end_ <? 0)%Z then Z.max (len + end_) 0 else Z.min end_ len in
  firstn (Z.to_nat (Z.max (final - k) 0)) (skipn (Z.to_nat k) l).

(** [Array.prototype.sort(compare)].  The language requires the sort to be
    stable and, for a consistent comparator, to order [a] before [b] when
    [compare a b < 0]; that fixes the result, computed here by insertion. *)
Fixpoint sort_insert (A : Type) (compare : A -> A -> Q) (x : A) (l : list A)
  : list A :=
  match l with
  | [] => [x]
  | y :: l' =>
      if Qle_bool (compare x y) 0 then x :: y :: l'
      else y :: sort_insert compare x l'
  end.

Definition sort (A : Type) (compare : A -> A -> Q) (l : list A) : list A :=
  fold_right (sort_insert compare) [] l.

(** Exceptions. *)
Inductive Error : Type :=
| TypeError
| SyntaxError
| RemoteError (message : JSString).

Inductive Result (A : Type) : Type :=
| Ok (a : A)
| Throw (e : Error).
Arguments Throw {A} e.

Definition bind (A B : Type) (r : Result A) (f : A -> Result B) : Result B :=
  match r with
  | Ok a => f a
  | Throw e => Throw e
  end.

(** [array.map(f)] where [f] may throw: the first exception, in index
    order, ends the traversal. *)
Fixpoint mapM (A B : Type) (f : A -> Result B) (l : list A)
  : Result (list B) :=
  match l with
  | [] => Ok []
  | x :: l' =>
      bind (f x) (fun y => bind (mapM f l') (fun ys => Ok (y :: ys)))
  end.

(** [Map]: keys in insertion order; [set] on a present key replaces the
    value in place. *)
Definition Map (V : Type) : Type := list (JSString * V).

Fixpoint Map_get (V : Type) (m : Map V) (key : JSString) : option V :=
  match m with
  | [] => None
  | (k, v) :: m' => if String_eqb k key then Some v else Map_get m' key
  end.

Definition Map_has (V : Type) (m : Map V) (key : JSString) : bool :=
  match Map_get m key with Some _ => true | None => false end.

Fixpoint Map_set (V : Type) (m : Map V) (key : JSString) (v : V) : Map V :=
  match m with
  | [] => [(key, v)]
  | (k, w) :: m' =>
      if String_eqb k key then (k, v) :: m'
      else (k, w) :: Map_set m' key v
  end.

Definition Map_values (V : Type) (m : Map V) : list V := map snd m.

(** ** JSON values and [JSON.parse] *)

(** A number keeps its literal: no claim depends on its numeric value. *)
Inductive JSON : Type :=
| JNull
| JBool (b : bool)
| JNumber (literal : JSString)
| JString (s : JSString)
| JArray (elements : list JSON)
| JObject (members : list (JSString * JSON)).

Inductive Token : Type :=
| TLBracket | TRBracket | TLBrace | TRBrace | TComma | TColon
| TString (s : JSString)
| TNumber (literal : JSString)
| TTrue | TFalse | TNull.

(** Lexer states; accumulated text is kept reversed. *)
Inductive LexState : Type :=
| LIdle
| LInString (acc : JSString)
| LEscape (acc : JSString)
| LHex (acc : JSString) (digits : list N)
| LNumber (acc : JSString)
| LWord (acc : JSString).

Definition isDigit (c : N) : bool := N.leb 48 c && N.leb c 57.
Definition isLower (c : N) : bool := N.leb 97 c && N.leb c 122.
Definition isNumberChar (c : N) : bool :=
  isDigit c || existsb (N.eqb c) [43; 45; 46; 69; 101]%N.
Definition isJSONSpace (c : N) : bool := existsb (N.eqb c) [9; 10; 13; 32]%N.

Definition hexValue (c : N) : option N :=
  if isDigit c then Some (c - 48)%N
  else if N.leb 97 c && N.leb c 102 then Some (c - 87)%N
  else if N.leb 65 c && N.leb c 70 then Some (c - 55)%N
  else None.

Fixpoint dropDigits (s : JSString) : JSString :=
  match s with
  | [] => []
  | c :: s' => if isDigit c then dropDigits s' else s
  end.

(** The number grammar: an optional minus sign; an integer part that is
    either 0 or starts with a digit 1-9; an optional fraction (a point and at
    least one digit); an optional exponent (e or E, an optional sign, at
    least one digit). *)
Definition valid_exponent (s : JSString) : bool :=
  match s with
  | [] => true
  | c :: s1 =>
      if N.eqb c 69 || N.eqb c 101 then
        let s2 := match s1 with
                  | d :: r => if N.eqb d 43 || N.eqb d 45 then r else s1
                  | [] => s1
                  end in
        match s2 with
        | d :: r => isDigit d && match dropDigits r with [] => true | _ => false end
        | [] => false
        end
      else false
  end.

Definition valid_fraction (s : JSString) : bool :=
  match s with
  | c :: s1 =>
      if N.eqb c 46 then
        match s1 with
        | d :: r => isDigit d && valid_exponent (dropDigits r)
        | [] => false
        end
      else valid_exponent s
  | [] => true
  end.

Definition valid_number (s : JSString) : bool :=
  let s1 := match s with
            | c :: r => if N.eqb c 45 then r else s
            | [] => s
            end in
  match s1 with
  | c :: r =>
      if N.eqb c 48 then valid_fraction r
      else isDigit c && valid_fraction (dropDigits r)
  | [] => false
  end.

Definition finishNumber (acc : JSString) : option Token :=
  let literal := rev acc in
  if valid_number literal then Some (TNumber literal) else None.

Definition finishWord (acc : JSString) : option Token :=
  let w := rev acc in
  if String_eqb w (str "true") then Some TTrue
  else if String_eqb w (str "false") then Some TFalse
  else if String_eqb w (str "null") then Some TNull
  else None.

(** One code unit read between tokens; [toks] is the reversed output. *)
Definition lex_idle (c : N) (toks : list Token)
  : option (LexState * list Token) :=
  if isJSONSpace c then Some (LIdle, toks)
  else if N.eqb c 91 then Some (LIdle, TLBracket :: toks)
  else if N.eqb c 93 then Some (LIdle, TRBracket :: toks)
  else if N.eqb c 123 then Some (LIdle, TLBrace :: toks)
  else if N.eqb c 125 then Some (LIdle, TRBrace :: toks)
  else if N.eqb c 44 then Some (LIdle, TComma :: toks)
  else if N.eqb c 58 then Some (LIdle, TColon :: toks)
  else if N.eqb c 34 then Some (LInString [], toks)
  else if N.eqb c 45 || isDigit c then Some (LNumber [c], toks)
  else if isLower c then Some (LWord [c], toks)
  else None.

Definition unescape (c : N) : option N :=
  if N.eqb c 34 then Some 34%N
  else if N.eqb c 92 then Some 92%N
  else if N.eqb c 47 then Some 47%N
  else if N.eqb c 98 then Some 8%N
  else if N.eqb c 102 then Some 12%N
  else if N.eqb c 110 then Some 10%N
  else if N.eqb c 114 then Some 13%N
  else if N.eqb c 116 then Some 9%N
  else None.

Definition lex_step (st : LexState) (c : N) (toks : list Token)
  : option (LexState * list Token) :=
  match st with
  | LIdle => lex_idle c toks
  | LInString acc =>
      if N.eqb c 34 then Some (LIdle, TString (rev acc) :: toks)
      else if N.eqb c 92 then Some (LEscape acc, toks)
      else if N.ltb c 32 then None
      else Some (LInString (c :: acc), toks)
  | LEscape acc =>
      if N.eqb c 117 then Some (LHex acc [], toks)
      else match unescape c with
           | Some u => Some (LInString (u :: acc), toks)
           | None => None
           end
  | LHex acc digits =>
      match hexValue c with
      | Some v =>
          let digits' := digits ++ [v] in
          if Nat.eqb (length digits') 4
          then Some (LInString
                       (fold_left (fun n d => (16 * n + d)%N) digits' 0%N :: acc),
                     toks)
          else Some (LHex acc digits', toks)
      | None => None
      end
  | LNumber acc =>
      if isNumberChar c then Some (LNumber (c :: acc), toks)
      else match finishNumber acc with
           | Some t => lex_idle c (t :: toks)
           | None => None
           end
  | LWord acc =>
      if isLower c then Some (LWord (c :: acc), toks)
      else match finishWord acc with
           | Some t => lex_idle c (t :: toks)
           | None => None
           end
  end.

Fixpoint lex (st : LexState) (toks : list Token) (s : JSString)
  : option (list Token) :=
  match s with
  | c :: s' =>
      match lex_step st c toks with
      | Some (st', toks') => lex st' toks' s'
      | None => None
      end
  | [] =>
      match st with
      | LIdle => Some (rev toks)
      | LNumber acc => option_map (fun t => rev (t :: toks)) (finishNumber acc)
      | LWord acc => option_map (fun t => rev (t :: toks)) (finishWord acc)
      | _ => None
      end
  end.

(** Parser: a stack of the containers being built. *)
Inductive Frame : Type :=
| FArray (rev_elements : list JSON)
| FObject (members : list (JSString * JSON))
| FMember (members : list (JSString * JSON)) (key : JSString).

Inductive ParseState : Type :=
| PValue
| PValueOrClose
| PAfterValue
| PKeyOrClose
| PKey
| PColon
| PDone (v : JSON).

(** A value is complete: it ends the text or joins the enclosing container.
    A repeated key of an object keeps its first position and its last
    value. *)
Definition complete (v : JSON) (stack : list Frame)
  : option (ParseState * list Frame) :=
  match stack with
  | [] => Some (PDone v, [])
  | FArray es :: st => Some (PAfterValue, FArray (v :: es) :: st)
  | FMember ms k :: st => Some (PAfterValue, FObject (Map_set ms k v) :: st)
  | FObject _ :: _ => None
  end.

Definition parse_value (t : Token) (stack : list Frame)
  : option (ParseState * list Frame) :=
  match t with
  | TString s => complete (JString s) stack
  | TNumber n => complete (JNumber n) stack
  | TTrue => complete (JBool true) stack
  | TFalse => complete (JBool false) stack
  | TNull => complete JNull stack
  | TLBracket => Some (PValueOrClose, FArray [] :: stack)
  | TLBrace => Some (PKeyOrClose, FObject [] :: stack)
  | _ => None
  end.

Definition parse_key (t : Token) (stack : list Frame)
  : option (ParseState * list Frame) :=
  match t, stack with
  | TString k, FObject ms :: st => Some (PColon, FMember ms k :: st)
  | _, _ => None
  end.

Definition parse_close (t : Token) (stack : list Frame)
  : option (ParseState * list Frame) :=
  match t, stack with
  | TRBracket, FArray es :: st => complete (JArray (rev es)) st
  | TRBrace, FObject ms :: st => complete (JObject ms) st
  | _, _ => None
  end.

Definition parse_step (ps : ParseState) (t : Token) (stack : list Frame)
  : option (ParseState * list Frame) :=
  match ps with
  | PValue => parse_value t stack
  | PValueOrClose =>
      match t with
      | TRBracket => parse_close t stack
      | _ => parse_value t stack
      end
  | PAfterValue =>
      match t, stack with
      | TComma, FArray _ :: _ => Some (PValue, stack)
      | TComma, FObject _ :: _ => Some (PKey, stack)
      | _, _ => parse_close t stack
      end
  | PKeyOrClose =>
      match t with
      | TRBrace => parse_close t stack
      | _ => parse_key t stack
      end
  | PKey => parse_key t stack
  | PColon =>
      match t with
      | TColon => Some (PValue, stack)
      | _ => None
      end
  | PDone _ => None
  end.

Fixpoint parse (ps : ParseState) (stack : list Frame) (toks : list Token)
  : option JSON :=
  match toks with
  | t :: toks' =>
      match parse_step ps t stack with
      | Some (ps', stack') => parse ps' stack' toks'
      | None => None
      end
  | [] =>
      match ps with
      | PDone v => Some v
      | _ => None
      end
  end.

(** [JSON.parse(text)]: the value, or a [SyntaxError]. *)
Definition JSON_parse (text : JSString) : Result JSON :=
  match lex LIdle [] text with
  | Some toks =>
      match parse PValue [] toks with
      | Some v => Ok v
      | None => Throw SyntaxError
      end
  | None => Throw SyntaxError
  end.

End JS.
Import JS.

Notation "x <- r ;; k" := (bind r (fun x => k))
  (at level 61, r at next level, right associativity).

(** ** External services

    The hosted services are reached through client libraries.  Each call
    either yields a value or throws; a field folds the call and the read of
    the reply ([result.response.text()], [result.embedding.values]) into one
    outcome.  The vector index is the configured collection. *)

(** A point as [qdrantClient.search] returns it: a payload (a JSON object, or
    null) and a score. *)
Record ScoredPoint : Type := {
  payload : option (list (JSString * JSON));
  point_score : Q
}.

Record Services : Type := {
  generateContent : JSString -> Result JSString;
  embedContent : JSON -> Result (list Q);
  qdrant_search : list Q -> Z -> Result (list ScoredPoint)
}.

(** A retrieval hit as [singleQuerySearch] builds it.  A property read of a
    payload yields [None] (undefined) when the member is absent. *)
Record Hit : Type := {
  pageContent : option JSON;
  metadata : option JSON;
  score : Q;
  query : JSON
}.

Definition Qlt_bool (x y : Q) : bool := negb (Qle_bool y x).

(** Iteration of a string (spread syntax): by code points, a surrogate pair
    giving one element.  [lead] is a high surrogate waiting for its pair. *)
Definition isHighSurrogate (c : N) : bool := N.leb 55296 c && N.leb c 56319.
Definition isLowSurrogate (c : N) : bool := N.leb 56320 c && N.leb c 57343.

Fixpoint codePoints_from (lead : option N) (s : JSString) : list JSString :=
  match s with
  | [] => match lead with Some h => [[h]] | None => [] end
  | c :: s' =>
      match lead with
      | Some h =>
          if isLowSurrogate c then [h; c] :: codePoints_from None s'
          else if isHighSurrogate c then [h] :: codePoints_from (Some c) s'
          else [h] :: [c] :: codePoints_from None s'
      | None =>
          if isHighSurrogate c then codePoints_from (Some c) s'
          else [c] :: codePoints_from None s'
      end
  end.

(** [[...v]]: arrays and strings are iterable, other JSON values are not. *)
Definition spread (v : JSON) : Result (list JSON) :=
  match v with
  | JArray elements => Ok elements
  | JString s => Ok (map JString (codePoints_from None s))
  | _ => Throw TypeError
  end.

(** A value inside a template literal is converted to a string.  For a JSON
    value the conversion throws a [TypeError] in one case: an object with an
    own [toString] member (the member is data, not a function, and the
    inherited [valueOf] returns the object itself).  An array is converted
    by [join], which converts its elements, null becoming the empty string.
    [stringifiable v] tells that the conversion returns. *)
Fixpoint stringifiable (v : JSON) : bool :=
  match v with
  | JObject members => negb (Map_has members (str "toString"))
  | JArray elements => forallb stringifiable elements
  | _ => true
  end.

(** A console line built from a template literal over [v]: the text goes to
    the console, the exception of the conversion goes to the caller. *)
Definition logged (v : JSON) : Result unit :=
  if stringifiable v then Ok tt else Throw TypeError.

(** [forEach] with a callback that may throw, threading the mutated state. *)
Fixpoint forEachM (S A : Type) (f : S -> A -> Result S) (l : list A) (s : S)
  : Result S :=
  match l with
  | [] => Ok s
  | x :: l' => s' <- f s x ;; forEachM f l' s'
  end.

(** ** The retrieval pipeline (query expansion, fan-out, merge) *)

Section Retrieval.

Variable svc : Services.

Definition getEmbeddings (text : JSON) : Result (list Q) :=
  match embedContent svc text with
  | Ok values => Ok values
  | Throw error => Throw error
  end.

Definition prompt_for (originalQuery : JSString) : JSString :=
  nl ++ str "Generate three different versions of the following query to retrieve relevant information about Node.js. " ++ nl
  ++ str "Create variations that:" ++ nl
  ++ str "1. Focus on technical details and specifications" ++ nl
  ++ str "2. Focus on practical use cases and examples" ++ nl
  ++ str "3. Focus on conceptual understanding and fundamentals" ++ nl
  ++ nl
  ++ str "Original query: " ++ dq ++ originalQuery ++ dq ++ nl
  ++ nl
  ++ str "Format your response as a JSON array with only the query variations. For example:" ++ nl
  ++ str "[" ++ dq ++ str "variation 1" ++ dq ++ str ", "
  ++ dq ++ str "variation 2" ++ dq ++ str ", "
  ++ dq ++ str "variation 3" ++ dq ++ str "]" ++ nl.

Definition fence : JSString := backtick ++ backtick ++ backtick.
Definition fence_json : JSString := fence ++ str "json".

(** The variations built when the reply does not parse. *)
Definition templatedVariations (originalQuery : JSString) : list JSON :=
  [ JString originalQuery;
    JString (str "What are the technical aspects of " ++ originalQuery ++ str "?");
    JString (str "Examples of " ++ originalQuery ++ str " in Node.js");
    JString (str "Explain the concept of " ++ originalQuery ++ str " in Node.js") ].

(** The reply without its code-fence markers, trimmed. *)
Definition jsonTextOf (responseText : JSString) : JSString :=
  trim (removeAll [fence_json; fence] responseText).

(** The inner [try] block: clean the reply, parse it, prepend the query. *)
Definition parseVariations (originalQuery responseText : JSString)
  : Result (list JSON) :=
  let jsonText := jsonTextOf responseText in
  variations <- JSON_parse jsonText ;;
  rest <- spread variations ;;
  Ok (JString originalQuery :: rest).

Definition generateQueryVariations (originalQuery : JSString) : list JSON :=
  match generateContent svc (prompt_for originalQuery) with
  | Ok responseText =>
      match parseVariations originalQuery responseText with
      | Ok variations => variations
      | Throw _ => templatedVariations originalQuery
      end
  | Throw _ => [JString originalQuery]
  end.

(** [hit.payload.name]: a [TypeError] on a null payload. *)
Definition payload_member (hit : ScoredPoint) (name : JSString)
  : Result (option JSON) :=
  match payload hit with
  | Some members => Ok (Map_get members name)
  | None => Throw TypeError
  end.

Definition toHit (q : JSON) (hit : ScoredPoint) : Result Hit :=
  content <- payload_member hit (str "content") ;;
  meta <- payload_member hit (str "metadata") ;;
  Ok {| pageContent := content; metadata := meta;
        score := point_score hit; query := q |}.

(** The [try] block of [singleQuerySearch]. *)
Definition singleQuerySearch_try (q : JSON) (k : Z) : Result (list Hit) :=
  queryEmbedding <- getEmbeddings q ;;
  searchResult <- qdrant_search svc queryEmbedding k ;;
  mapM (toHit q) searchResult.

(** The [catch] clause builds its console line from the query before it
    returns the empty array. *)
Definition singleQuerySearch (q : JSON) (k : Z) : Result (list Hit) :=
  match singleQuerySearch_try q k with
  | Ok hits => Ok hits
  | Throw _ => _ <- logged q ;; Ok []
  end.

(** [result.pageContent.substring(0, 100)]: a [TypeError] unless the content
    is a string. *)
Definition contentIdentifier (result : Hit) : Result JSString :=
  match pageContent result with
  | Some (JString text) => Ok (substring text 0 100)
  | _ => Throw TypeError
  end.

(** The body of the deduplication loop. *)
Definition dedupStep (contentMap : Map Hit) (result : Hit)
  : Result (Map Hit) :=
  key <- contentIdentifier result ;;
  if negb (Map_has contentMap key)
     || match Map_get contentMap key with
        | Some kept => Qlt_bool (score kept) (score result)
        | None => false
        end
  then Ok (Map_set contentMap key result)
  else Ok contentMap.

Definition dedup (flatResults : list Hit) : Result (Map Hit) :=
  forEachM dedupStep flatResults [].

Definition byScoreDescending (a b : Hit) : Q := (score b - score a)%Q.

(** The merge step: deduplicate, sort by score, keep the first [k]. *)
Definition mergeResults (flatResults : list Hit) (k : Z) : Result (list Hit) :=
  contentMap <- dedup flatResults ;;
  Ok (slice (sort byScoreDescending (Map_values contentMap)) 0 k).

(** One console line per variation (line 184 of the script). *)
Definition logVariations (queryVariations : list JSON) : Result unit :=
  forEachM (fun _ q => logged q) queryVariations tt.

(** [Promise.all] over the searches: one result per variation, in the order
    of the variations; a search that rejects rejects the batch. *)
Definition fanOut (queryVariations : list JSON) (k : Z)
  : Result (list (list Hit)) :=
  mapM (fun q => singleQuerySearch q k) queryVariations.

(** The [try] block of [parallelQuerySearch] up to the end of the fan-out. *)
Definition fanOutResults (originalQuery : JSString) (k : Z)
  : Result (list (list Hit)) :=
  let queryVariations := generateQueryVariations originalQuery in
  _ <- logVariations queryVariations ;;
  fanOut queryVariations k.

(** The [try] block of [parallelQuerySearch]: expansion, console lines,
    fan-out, merge. *)
Definition parallelQuerySearch_try (originalQuery : JSString) (k : Z)
  : Result (list Hit) :=
  allResults <- fanOutResults originalQuery k ;;
  let flatResults := concat allResults in
  mergeResults flatResults k.

(** The [catch] clause returns the promise of a single search. *)
Definition parallelQuerySearch (originalQuery : JSString) (k : Z)
  : Result (list Hit) :=
  match parallelQuerySearch_try originalQuery k with
  | Ok mergedResults => Ok mergedResults
  | Throw _ => singleQuerySearch (JString originalQuery) k
  end.

End Retrieval.

(** ** Batch indexing

    The indexing functions call services whose calls matter, so they run in
    a state monad over the log of outbound calls; the log is kept on an
    exception too. *)

Record Document : Type := {
  doc_pageContent : JSString;
  doc_metadata : option (list (JSString * JSON))
}.

Record Point : Type := {
  id : JSString;
  vector : list Q;
  content : JSString;
  point_metadata : list (JSString * JSON)
}.

(** The vector-index client and the identifier generator: [uuidv4 n] is the
    identifier returned by the call number [n]. *)
Record VectorStore : Type := {
  getCollections : Result (list JSString);
  createCollection : JSString -> N -> Result unit;
  upsert : JSString -> list Point -> Result unit;
  uuidv4 : nat -> JSString
}.

Inductive Call : Type :=
| CallGetCollections
| CallCreateCollection (name : JSString) (size : N)
| CallEmbed (text : JSString)
| CallUpsert (name : JSString) (points : list Point).

Record World : Type := {
  calls : list Call;
  uuids : nat
}.

Definition M (A : Type) : Type := World -> Result A * World.

Definition bindM (A B : Type) (m : M A) (f : A -> M B) : M B :=
  fun w =>
    match m w with
    | (Ok a, w') => f a w'
    | (Throw e, w') => (Throw e, w')
    end.

Notation "x <~ m ;; k" := (bindM m (fun x => k))
  (at level 61, m at next level, right associativity).

Definition ret (A : Type) (a : A) : M A := fun w => (Ok a, w).

(** An outbound call: logged, then its outcome. *)
Definition call (A : Type) (c : Call) (outcome : Result A) : M A :=
  fun w => (outcome, {| calls := calls w ++ [c]; uuids := uuids w |}).

Section Indexing.

Variable svc : Services.
Variable store : VectorStore.
Variable collectionName : JSString.

Definition vectorSize : N := 768.
Definition batchSize : Z := 20.

Definition createCollectionIfNotExists : M unit :=
  collections <~ call CallGetCollections (getCollections store) ;;
  let exists_ := existsb (fun c => String_eqb c collectionName) collections in
  if negb exists_ then
    call (CallCreateCollection collectionName vectorSize)
         (createCollection store collectionName vectorSize)
  else ret tt.

(** [Promise.all(batch.map(async doc => ..))]: the embedding call of every
    document of the batch is issued, in order, before any reply is awaited;
    the points are built when all replies are there, and a failed call
    rejects the whole batch.  A document without metadata gets the empty
    object. *)
Definition embedBatch (batch : list Document) : M (list Point) :=
  fun w =>
    let w1 := {| calls := calls w ++ map (fun doc => CallEmbed (doc_pageContent doc)) batch;
                 uuids := uuids w |} in
    match mapM (fun doc => getEmbeddings svc (JString (doc_pageContent doc))) batch with
    | Ok embeddings =>
        (Ok (map (fun '(n, (doc, embedding)) =>
                    {| id := uuidv4 store (uuids w + n);
                       vector := embedding;
                       content := doc_pageContent doc;
                       point_metadata :=
                         match doc_metadata doc with
                         | Some members => members
                         | None => []
                         end |})
                 (combine (seq 0 (length batch)) (combine batch embeddings))),
         {| calls := calls w1; uuids := uuids w + length batch |})
    | Throw e => (Throw e, w1)
    end.

Definition processBatch (batch : list Document) : M unit :=
  points <~ embedBatch batch ;;
  call (CallUpsert collectionName points) (upsert store collectionName points).

(** The [for] loop; [fuel] bounds the number of iterations and [None] tells
    that the bound was reached. *)
Fixpoint batchLoop (fuel : nat) (documents : list Document) (i : Z) (w : World)
  : option (Result unit * World) :=
  match fuel with
  | O => None
  | S fuel' =>
      if (i <? Z.of_nat (length documents))%Z then
        let batch :=
          slice documents i (Z.min (i + batchSize) (Z.of_nat (length documents))) in
        match processBatch batch w with
        | (Ok _, w') => batchLoop fuel' documents (i + batchSize) w'
        | (Throw e, w') => Some (Throw e, w')
        end
      else Some (Ok tt, w)
  end.

(** The [catch] clause logs and rethrows. *)
Definition addDocumentsToVectorStore (documents : list Document) (w : World)
  : option (Result unit * World) :=
  match createCollectionIfNotExists w with
  | (Ok _, w') => batchLoop (S (length documents)) documents 0 w'
  | (Throw error, w') => Some (Throw error, w')
  end.

End Indexing.

(** The upsert calls of a log (the points of each) and its embedding calls
    (the text of each), in order. *)
Definition upsertCalls (log : list Call) : list (list Point) :=
  flat_map (fun c => match c with CallUpsert _ points => [points] | _ => [] end) log.

Definition embedCalls (log : list Call) : list JSString :=
  flat_map (fun c => match c with CallEmbed text => [text] | _ => [] end) log.

(** ** Predicates of the specification *)

Definition hasText (h : Hit) : bool :=
  match pageContent h with
  | Some (JString _) => true
  | _ => false
  end.

(** [h] is, among the hits of [flat] with identity key [key], the first one
    of highest score. *)
Definition FirstBest (flat : list Hit) (key : JSString) (h : Hit) : Prop :=
  exists before after,
    flat = before ++ h :: after /\
    contentIdentifier h = Ok key /\
    (forall h', In h' before -> contentIdentifier h' = Ok key ->
                 (score h' < score h)%Q) /\
    (forall h', In h' after -> contentIdentifier h' = Ok key ->
                 (score h' <= score h)%Q).

(** What the content map holds once the hits [seen] went through the loop. *)
Definition DedupInv (seen : list Hit) (contentMap : Map Hit) : Prop :=
  NoDup (map fst contentMap) /\
  (forall key, In key (map fst contentMap) <->
               exists h, In h seen /\ contentIdentifier h = Ok key) /\
  (forall key h, Map_get contentMap key = Some h -> FirstBest seen key h).

(** Order of two adjacent entries of a list sorted by score, highest first. *)
Definition ScoreDescending (a b : Hit) : Prop := (score b <= score a)%Q.

(** The identity key of a hit that has one. *)
Definition keyOf (h : Hit) : JSString :=
  match contentIdentifier h with
  | Ok key => key
  | Throw _ => []
  end.

(** The calls one batch makes when it succeeds: the embedding of each of its
    documents, then a single upsert of the points built from them. *)
Definition batchCalls (name : JSString) (points : list Point) : list Call :=
  map (fun p => CallEmbed (content p)) points ++ [CallUpsert name points].

(** The hits a search finds: those of its [try] block, none when it throws. *)
Definition hitsFound (svc : Services) (k : Z) (q : JSON) : list Hit :=
  match singleQuerySearch_try svc q k with
  | Ok hits => hits
  | Throw _ => []
  end.

(** How a batch fails: either an embedding call of the batch throws, all the
    embedding calls of the batch having been issued and no upsert made, or
    the upsert of the points of the batch throws. *)
Definition failedBatch (svc : Services) (store : VectorStore) (name : JSString)
           (batch : list Document) (e : Error) (made : list Call) : Prop :=
  (made = map (fun doc => CallEmbed (doc_pageContent doc)) batch /\
   exists doc, In doc batch /\
               getEmbeddings svc (JString (doc_pageContent doc)) = Throw e) \/
  (exists points,
      made = batchCalls name points /\
      map content points = map doc_pageContent batch /\
      upsert store name points = Throw e).

(** ** Startup

    [main] of the retrieval script, given the chunks of the document.  Its
    events are the outbound calls of the indexing and the read of the
    collection information; [AskingQuestions] tells that the question loop
    was started, [ProcessExit] that the process was ended. *)

Inductive StartupEvent : Type :=
| Outbound (c : Call)
| ReadCollectionInfo (name : JSString).

Inductive Startup : Type :=
| AskingQuestions
| ProcessExit (code : Z).

(** [pointCount === 0]; the count is [None] when the reply has none. *)
Definition pointCountIsZero (pointCount : option Z) : bool :=
  match pointCount with
  | Some 0%Z => true
  | _ => false
  end.

Section Startup.

Variable svc : Services.
Variable store : VectorStore.
Variable getCollectionInfo : JSString -> Result (option Z).
Variable collectionName : JSString.
Variable splitDocs : list Document.

(** [await addDocumentsToVectorStore(splitDocs)] at startup. *)
Definition indexAtStartup (events : list StartupEvent)
  : option (Result unit * list StartupEvent) :=
  match addDocumentsToVectorStore svc store collectionName splitDocs
          {| calls := []; uuids := 0 |} with
  | Some (r, w) => Some (r, events ++ map Outbound (calls w))
  | None => None
  end.

(** The outer [catch] ends the process with code 1; the inner [try] encloses
    the read of the collection information and the indexing of an empty
    collection, and its [catch] only reports. *)
Definition main : option (Startup * list StartupEvent) :=
  match getCollections store with
  | Ok collections =>
      let events := [Outbound CallGetCollections] in
      let exists_ := existsb (fun c => String_eqb c collectionName) collections in
      if negb exists_ then
        match indexAtStartup events with
        | Some (Ok _, events') => Some (AskingQuestions, events')
        | Some (Throw _, events') => Some (ProcessExit 1, events')
        | None => None
        end
      else
        let events := events ++ [ReadCollectionInfo collectionName] in
        match getCollectionInfo collectionName with
        | Ok pointCount =>
            if pointCountIsZero pointCount then
              match indexAtStartup events with
              | Some (_, events') => Some (AskingQuestions, events')
              | None => None
              end
            else Some (AskingQuestions, events)
        | Throw _ => Some (AskingQuestions, events)
        end
  | Throw _ => Some (ProcessExit 1, [Outbound CallGetCollections])
  end.

End Startup.

(** The indexing at startup fails. *)
Definition indexingFails (svc : Services) (store : VectorStore)
           (collectionName : JSString) (splitDocs : list Document) : Prop :=
  exists e w,
    addDocumentsToVectorStore svc store collectionName splitDocs
      {| calls := []; uuids := 0 |} = Some (Throw e, w).

(** An index without the collection, and one whose collection is empty. *)
Definition freshStore : VectorStore :=
  {| getCollections := Ok [];
     createCollection := fun _ _ => Ok tt;
     upsert := fun _ _ => Ok tt;
     uuidv4 := fun n => str "uuid-" ++ [N.of_nat (65 + n)] |}.

(** The JSON values that spread syntax cannot iterate. *)
Definition notIterable (v : JSON) : bool :=
  match v with
  | JArray _ | JString _ => false
  | _ => true
  end.

(** ** The model recommender (llmRouter.js)

    [ToString] is the conversion of a value inside a template literal, an
    operation of the language: it is a parameter, and it may throw (an object
    whose own [toString] member is not a function).  [generate] is the call of
    the generative model and the read of its reply. *)

(** [Array.prototype.join] on an array of strings. *)
Fixpoint join (sep : JSString) (l : list JSString) : JSString :=
  match l with
  | [] => []
  | [x] => x
  | x :: l' => x ++ sep ++ join sep l'
  end.

(** [v.name] for a JSON value [v]: a [TypeError] on null, the member of an
    object, undefined on any other value. *)
Definition member (v : JSON) (name : JSString) : Result (option JSON) :=
  match v with
  | JNull => Throw TypeError
  | JObject members => Ok (Map_get members name)
  | _ => Ok None
  end.

Inductive Loaded : Type :=
| ModelData (models : option JSON)
| LoadExit (code : Z).

(** [readFile] is the outcome of reading the models file. *)
Definition loadAIModelData (readFile : Result JSString) : Loaded :=
  match (fileData <- readFile ;;
         modelData <- JSON_parse fileData ;;
         member modelData (str "models")) with
  | Ok models => ModelData models
  | Throw _ => LoadExit 1
  end.

Definition recommendError : JSString :=
  str "Sorry, I encountered an error while trying to recommend an AI model. Please check your API key and try again.".

Section Router.

Variable ToString : option JSON -> Result JSString.
Variable generate : JSString -> Result JSString.

Definition modelSection (model : JSON) : Result JSString :=
  name <- bind (member model (str "name")) ToString ;;
  provider <- bind (member model (str "provider")) ToString ;;
  bestFor <- bind (member model (str "bestFor")) ToString ;;
  pricing <- bind (member model (str "pricing")) ToString ;;
  limitations <- bind (member model (str "limitations")) ToString ;;
  Ok (nl
      ++ str "    Model: " ++ name ++ nl
      ++ str "    Provider: " ++ provider ++ nl
      ++ str "    Best for: " ++ bestFor ++ nl
      ++ str "    Pricing: " ++ pricing ++ nl
      ++ str "    Limitations: " ++ limitations ++ nl
      ++ str "  ").

(** [modelDatabase.map] is a function on arrays only. *)
Definition createModelSelectorPrompt (userQuery : JSString)
           (modelDatabase : option JSON) : Result JSString :=
  match modelDatabase with
  | Some (JArray models) =>
      sections <- mapM modelSection models ;;
      let modelData := join nl sections in
      Ok (nl
  ++ str "    You are a knowledgeable AI model selector. Your job is to recommend the best AI model based on the user's needs." ++ nl
  ++ str "    " ++ nl
  ++ str "    Below is information about various AI models:" ++ nl
  ++ str "    " ++ modelData ++ nl
  ++ str "    " ++ nl
  ++ str "    User Query: " ++ dq ++ userQuery ++ dq ++ nl
  ++ str "    " ++ nl
  ++ str "    Based on the user's query, please analyze which AI model would be the best fit." ++ nl
  ++ str "    " ++ nl
  ++ str "    In your response, provide:" ++ nl
  ++ str "    1. The recommended AI model name" ++ nl
  ++ str "    2. Why this model is the best fit for their needs" ++ nl
  ++ str "    3. Pricing considerations" ++ nl
  ++ str "    4. Any limitations or alternatives they should consider" ++ nl
  ++ str "    5. A brief suggestion on how they might implement their solution" ++ nl
  ++ str "    " ++ nl
  ++ str "    Format your response in a clear, structured way with headings." ++ nl
  ++ str "  ")
  | _ => Throw TypeError
  end.

(** The recommendation and the prompts sent to the generative model. *)
Definition recommendAIModel (query : JSString) (modelDatabase : option JSON)
  : JSString * list JSString :=
  match createModelSelectorPrompt query modelDatabase with
  | Ok prompt =>
      match generate prompt with
      | Ok text => (text, [prompt])
      | Throw _ => (recommendError, [prompt])
      end
  | Throw _ => (recommendError, [])
  end.

End Router.

(** A conversion that covers strings and undefined, for the samples. *)
Definition sampleToString (v : option JSON) : Result JSString :=
  match v with
  | Some (JString s) => Ok s
  | None => Ok (str "undefined")
  | Some _ => Throw TypeError
  end.

(** A models file whose top-level member is not the expected [models]. *)
Definition misnamedModelsFile : JSString :=
  str "{" ++ dq ++ str "model" ++ dq ++ str ": [{" ++ dq ++ str "name" ++ dq
  ++ str ": " ++ dq ++ str "GPT-4o" ++ dq ++ str "}]}".

(** ** The plain search of the first script

    [similaritySearch] of the single-query script: the same calls as
    [singleQuerySearch], hits without query tag, and a [catch] that rethrows. *)

Record PlainHit : Type := {
  plain_pageContent : option JSON;
  plain_metadata : option JSON;
  plain_score : Q
}.

Definition toPlainHit (hit : ScoredPoint) : Result PlainHit :=
  match payload hit with
  | Some members =>
      Ok {| plain_pageContent := Map_get members (str "content");
            plain_metadata := Map_get members (str "metadata");
            plain_score := point_score hit |}
  | None => Throw TypeError
  end.

Definition similaritySearch (svc : Services) (q : JSON) (k : Z)
  : Result (list PlainHit) :=
  match (queryEmbedding <- getEmbeddings svc q ;;
         searchResult <- qdrant_search svc queryEmbedding k ;;
         mapM toPlainHit searchResult) with
  | Ok hits => Ok hits
  | Throw error => Throw error
  end.

(** A plain hit with the tag of the query that retrieved it. *)
Definition tagged (q : JSON) (h : PlainHit) : Hit :=
  {| pageContent := plain_pageContent h; metadata := plain_metadata h;
     score := plain_score h; query := q |}.

(** Every point of every upsert call of a log pairs a text with the embedding
    of that text. *)
Definition wellEmbedded (svc : Services) (log : list Call) : Prop :=
  forall points p,
    In points (upsertCalls log) -> In p points ->
    getEmbeddings svc (JString (content p)) = Ok (vector p).

(** ** Sample inputs *)

Definition sampleHit (text : string) (s : Q) (q : string) : Hit :=
  {| pageContent := Some (JString (str text)); metadata := None;
     score := s; query := JString (str q) |}.

(** Five hits of three searches; two contents are retrieved twice. *)
Definition sampleHits : list Hit :=
  [ sampleHit "Streams are collections of data" 0.9 "streams";
    sampleHit "The event loop" 0.8 "streams";
    sampleHit "Streams are collections of data" 0.95 "how do streams work";
    sampleHit "Buffers hold raw bytes" 0.7 "how do streams work";
    sampleHit "The event loop" 0.8 "stream examples" ].

Definition samplePoint (member text : string) (s : Q) : ScoredPoint :=
  {| payload := Some [(str member, JString (str text))]; point_score := s |}.

(** A reply in a code fence holding an array of two strings. *)
Definition replyOfTwo : JSString :=
  fence_json ++ nl
  ++ str "[" ++ dq ++ str "how do streams work" ++ dq ++ str ", "
  ++ dq ++ str "stream examples" ++ dq ++ str "]" ++ nl
  ++ fence.

(** The generative service answers with two variations; every search finds
    one chunk. *)
Definition twoVariationServices : Services :=
  {| generateContent := fun _ => Ok replyOfTwo;
     embedContent := fun _ => Ok [0.1; 0.2]%Q;
     qdrant_search := fun _ _ => Ok [samplePoint "content" "The event loop" 0.8] |}.

(** The generative service answers with prose. *)
Definition proseServices : Services :=
  {| generateContent := fun _ => Ok (str "Here are three variations of your query.");
     embedContent := fun _ => Ok [0.1; 0.2]%Q;
     qdrant_search := fun _ _ => Ok [samplePoint "content" "The event loop" 0.8] |}.

(** The embedding of the query [streams] fails; the other queries find one
    chunk. *)
Definition flakyServices : Services :=
  {| generateContent := fun _ => Throw (RemoteError (str "unavailable"));
     embedContent := fun q =>
       match q with
       | JString s =>
           if String_eqb s (str "streams")
           then Throw (RemoteError (str "timeout"))
           else Ok [0.1; 0.2]%Q
       | _ => Throw TypeError
       end;
     qdrant_search := fun _ _ => Ok [samplePoint "content" "The event loop" 0.8] |}.

(** The collection was filled by another program: its payloads have no
    [content] member. *)
Definition foreignServices : Services :=
  {| generateContent := fun _ => Throw (RemoteError (str "unavailable"));
     embedContent := fun _ => Ok [0.1; 0.2]%Q;
     qdrant_search := fun _ _ => Ok [samplePoint "text" "The event loop" 0.8] |}.

Definition sampleStore : VectorStore :=
  {| getCollections := Ok [str "learning_langchain"];
     createCollection := fun _ _ => Ok tt;
     upsert := fun _ _ => Ok tt;
     uuidv4 := fun n => str "uuid-" ++ [N.of_nat (65 + n)] |}.

Definition sampleDocument (n : nat) : Document :=
  {| doc_pageContent := str "chunk " ++ [N.of_nat (65 + n)]; doc_metadata := None |}.

(** Twenty-one documents: two batches. *)
Definition sampleDocuments : list Document := map sampleDocument (seq 0 21).

(** A document whose text is the query that [flakyServices] cannot embed. *)
Definition streamsDocument : Document :=
  {| doc_pageContent := str "streams"; doc_metadata := None |}.

Definition emptyWorld : World := {| calls := []; uuids := 0 |}.

(** The search returns two points, the second one without payload. *)
Definition nullPayloadServices : Services :=
  {| generateContent := fun _ => Throw (RemoteError (str "unavailable"));
     embedContent := fun _ => Ok [0.1; 0.2]%Q;
     qdrant_search := fun _ _ =>
       Ok [ samplePoint "content" "The event loop" 0.8;
            {| payload := None; point_score := 0.7 |} ] |}.

(** The text of a JSON array of two strings, without fences. *)
Definition arrayOfTwo : JSString :=
  str "[" ++ dq ++ str "how do streams work" ++ dq ++ str ", "
  ++ dq ++ str "stream examples" ++ dq ++ str "]".

(** The generative service answers with a JSON string, not an array. *)
Definition stringReplyServices : Services :=
  {| generateContent := fun _ => Ok (dq ++ str "io" ++ dq);
     embedContent := fun _ => Ok [0.1; 0.2]%Q;
     qdrant_search := fun _ _ => Ok [] |}.

(** The generative service answers with a JSON object wrapping the array. *)
Definition objectReplyServices : Services :=
  {| generateContent := fun _ =>
       Ok (str "{" ++ dq ++ str "variations" ++ dq ++ str ": " ++ arrayOfTwo ++ str "}");
     embedContent := fun _ => Ok [0.1; 0.2]%Q;
     qdrant_search := fun _ _ => Ok [] |}.

(** A text without backquote (code unit 96). *)
Definition noBacktick (s : JSString) : Prop := Forall (fun c => c <> 96%N) s.

(** Services for a whole request: the generative service answers with two
    variations, and the index returns the five sample hits, two for the
    original query [streams], two for the first variation and one for the
    second. *)
Definition requestServices : Services :=
  {| generateContent := fun _ => Ok replyOfTwo;
     embedContent := fun q =>
       match q with
       | JString s =>
           if String_eqb s (str "streams") then Ok [1]%Q
           else if String_eqb s (str "how do streams work") then Ok [2]%Q
           else Ok [3]%Q
       | _ => Throw TypeError
       end;
     qdrant_search := fun v _ =>
       match v with
       | [x] =>
           if Qeq_bool x 1 then
             Ok [ samplePoint "content" "Streams are collections of data" 0.9;
                  samplePoint "content" "The event loop" 0.8 ]
           else if Qeq_bool x 2 then
             Ok [ samplePoint "content" "Streams are collections of data" 0.95;
                  samplePoint "content" "Buffers hold raw bytes" 0.7 ]
           else Ok [ samplePoint "content" "The event loop" 0.8 ]
       | _ => Ok []
       end |}.

(** The same request when the embedding of the first variation fails. *)
Definition failingVariationServices : Services :=
  {| generateContent := fun _ => Ok replyOfTwo;
     embedContent := fun q =>
       match q with
       | JString s =>
           if String_eqb s (str "streams") then Ok [1]%Q
           else if String_eqb s (str "how do streams work")
           then Throw (RemoteError (str "timeout"))
           else Ok [3]%Q
       | _ => Throw TypeError
       end;
     qdrant_search := qdrant_search requestServices |}.

(** * Properties *)

Unset Implicit Arguments.

(** ** Runtime lemmas *)

Lemma String_eqb_eq (a b : JSString) : String_eqb a b = true <-> a = b.
Proof.
  revert b; induction a as [|x a IH]; intros [|y b]; simpl;
    try (split; [discriminate | discriminate]); try tauto.
  rewrite andb_true_iff, N.eqb_eq, IH.
  split; [intros [-> ->]; reflexivity | intros E; inversion E; auto].
Qed.

Lemma String_eqb_refl (a : JSString) : String_eqb a a = true.
Proof. apply String_eqb_eq; reflexivity. Qed.

Lemma String_eqb_neq (a b : JSString) : String_eqb a b = false <-> a <> b.
Proof.
  rewrite <- String_eqb_eq. destruct (String_eqb a b); split; congruence.
Qed.

Lemma Qlt_bool_iff (x y : Q) : Qlt_bool x y = true <-> (x < y)%Q.
Proof.
  unfold Qlt_bool. rewrite negb_true_iff.
  destruct (Qle_bool y x) eqn:E.
  - apply Qle_bool_iff in E. split; [discriminate | intros H; exfalso; lra].
  - split; [intros _ | reflexivity].
    destruct (Qlt_le_dec x y) as [H|H]; [exact H|].
    apply Qle_bool_iff in H. congruence.
Qed.

Lemma Qlt_bool_false (x y : Q) : Qlt_bool x y = false <-> (y <= x)%Q.
Proof.
  destruct (Qlt_bool x y) eqn:E.
  - apply Qlt_bool_iff in E. split; [discriminate | intros H; exfalso; lra].
  - split; [intros _ | reflexivity].
    destruct (Qlt_le_dec x y) as [H|H]; [|exact H].
    apply Qlt_bool_iff in H. congruence.
Qed.

Section MapFacts.

Variable V : Type.
Implicit Types (m : Map V) (k : JSString) (v : V).

Lemma Map_get_In m k v : Map_get m k = Some v -> In (k, v) m.
Proof.
  induction m as [|[k0 v0] m IH]; simpl; [discriminate|].
  destruct (String_eqb k0 k) eqn:E.
  - apply String_eqb_eq in E. intros [= ->]. left; congruence.
  - auto.
Qed.

Lemma In_Map_get m k v :
  NoDup (map fst m) -> In (k, v) m -> Map_get m k = Some v.
Proof.
  induction m as [|[k0 v0] m IH]; simpl; [tauto|].
  intros ND [E|HIn].
  - inversion E; subst. now rewrite String_eqb_refl.
  - inversion ND as [|? ? Hnot ND']; subst.
    destruct (String_eqb k0 k) eqn:E.
    + apply String_eqb_eq in E; subst.
      exfalso; apply Hnot. now apply (in_map fst) in HIn.
    + auto.
Qed.

Lemma Map_get_None m k : Map_get m k = None <-> ~ In k (map fst m).
Proof.
  induction m as [|[k0 v0] m IH]; simpl; [tauto|].
  destruct (String_eqb k0 k) eqn:E.
  - apply String_eqb_eq in E. split; [discriminate | tauto].
  - apply String_eqb_neq in E. rewrite IH. tauto.
Qed.

Lemma Map_get_set_same m k v : Map_get (Map_set m k v) k = Some v.
Proof.
  induction m as [|[k0 v0] m IH]; simpl.
  - now rewrite String_eqb_refl.
  - destruct (String_eqb k0 k) eqn:E; simpl; now rewrite E.
Qed.

Lemma Map_get_set_other m k k' v :
  k <> k' -> Map_get (Map_set m k v) k' = Map_get m k'.
Proof.
  intros Hne. induction m as [|[k0 v0] m IH]; simpl.
  - apply String_eqb_neq in Hne. now rewrite Hne.
  - destruct (String_eqb k0 k) eqn:E; simpl.
    + apply String_eqb_eq in E; subst.
      apply String_eqb_neq in Hne. now rewrite Hne.
    + now rewrite IH.
Qed.

Lemma Map_set_keys_present m k v :
  In k (map fst m) -> map fst (Map_set m k v) = map fst m.
Proof.
  induction m as [|[k0 v0] m IH]; simpl; [tauto|].
  destruct (String_eqb k0 k) eqn:E; simpl; [reflexivity|].
  apply String_eqb_neq in E. intros [?|HIn]; [congruence|].
  now rewrite IH.
Qed.

Lemma Map_set_keys_absent m k v :
  ~ In k (map fst m) -> map fst (Map_set m k v) = map fst m ++ [k].
Proof.
  induction m as [|[k0 v0] m IH]; simpl; [reflexivity|].
  intros Hnot. destruct (String_eqb k0 k) eqn:E; simpl.
  - apply String_eqb_eq in E. tauto.
  - rewrite IH; tauto.
Qed.

Lemma Map_set_NoDup m k v : NoDup (map fst m) -> NoDup (map fst (Map_set m k v)).
Proof.
  intros ND. destruct (in_dec (list_eq_dec N.eq_dec) k (map fst m)) as [HIn|Hnot].
  - now rewrite Map_set_keys_present.
  - rewrite Map_set_keys_absent by assumption.
    apply NoDup_app; [assumption | repeat constructor; simpl; tauto |].
    intros x Hx [<-|[]]. tauto.
Qed.

End MapFacts.

(** ** Deduplication *)

Lemma hasText_contentIdentifier (h : Hit) :
  hasText h = true <-> exists key, contentIdentifier h = Ok key.
Proof.
  unfold hasText, contentIdentifier.
  destruct (pageContent h) as [[| | | | |]|]; split;
    try discriminate; try (intros [? ?]; discriminate); eauto.
Qed.

Lemma FirstBest_snoc_other seen key h x :
  contentIdentifier x <> Ok key ->
  FirstBest seen key h -> FirstBest (seen ++ [x]) key h.
Proof.
  intros Hx (before & after & -> & Hk & Hb & Ha).
  exists before, (after ++ [x]). repeat split; auto.
  - now rewrite <- app_assoc.
  - intros h' HIn Hk'. apply in_app_or in HIn as [HIn|[<-|[]]]; [auto|congruence].
Qed.

Lemma FirstBest_snoc_lower seen key h x :
  (score x <= score h)%Q ->
  FirstBest seen key h -> FirstBest (seen ++ [x]) key h.
Proof.
  intros Hx (before & after & -> & Hk & Hb & Ha).
  exists before, (after ++ [x]). repeat split; auto.
  - now rewrite <- app_assoc.
  - intros h' HIn Hk'. apply in_app_or in HIn as [HIn|[<-|[]]]; auto.
Qed.

Lemma FirstBest_snoc_higher seen key h x :
  contentIdentifier x = Ok key -> (score h < score x)%Q ->
  FirstBest seen key h -> FirstBest (seen ++ [x]) key x.
Proof.
  intros Hkx Hlt (before & after & -> & Hk & Hb & Ha).
  exists (before ++ h :: after), []. repeat split; auto.
  - intros h' HIn Hk'. apply in_app_or in HIn as [HIn|[<-|HIn]].
    + specialize (Hb _ HIn Hk'). lra.
    + exact Hlt.
    + specialize (Ha _ HIn Hk'). lra.
  - intros h' [].
Qed.

Lemma dedupStep_inv seen contentMap x contentMap' :
  DedupInv seen contentMap ->
  dedupStep contentMap x = Ok contentMap' ->
  DedupInv (seen ++ [x]) contentMap'.
Proof.
  intros (ND & Hkeys & Hbest). unfold dedupStep, Map_has.
  destruct (contentIdentifier x) as [key0|] eqn:Hx; simpl; [|discriminate].
  assert (Hkeys' : forall m : Map Hit, (forall key, In key (map fst m) <->
                                 In key (map fst contentMap) \/ key = key0) ->
            forall key, In key (map fst m) <->
                        exists h, In h (seen ++ [x]) /\ contentIdentifier h = Ok key).
  { intros m Hm key. rewrite Hm, Hkeys. split.
    - intros [(h & HIn & Hk)| ->].
      + exists h; split; [apply in_or_app; now left | exact Hk].
      + exists x; split; [apply in_or_app; right; now left | exact Hx].
    - intros (h & HIn & Hk). apply in_app_or in HIn as [HIn|[<-|[]]].
      + left; eauto.
      + right; congruence. }
  destruct (Map_get contentMap key0) as [kept|] eqn:Hget; simpl.
  - assert (HInKey : In key0 (map fst contentMap)).
    { apply Map_get_In in Hget. now apply (in_map fst) in Hget. }
    destruct (Qlt_bool (score kept) (score x)) eqn:Hlt; intros [= <-].
    + apply Qlt_bool_iff in Hlt. split; [now apply Map_set_NoDup|]. split.
      * apply Hkeys'. intros key. rewrite Map_set_keys_present by assumption.
        split; [tauto | intros [?| ->]; assumption].
      * intros key h. destruct (list_eq_dec N.eq_dec key0 key) as [<-|Hne].
        -- rewrite Map_get_set_same. intros [= <-].
           eapply FirstBest_snoc_higher; eauto.
        -- rewrite Map_get_set_other by assumption. intros Hg.
           apply FirstBest_snoc_other; [congruence | auto].
    + apply Qlt_bool_false in Hlt. split; [assumption|]. split.
      * apply Hkeys'. intros key. split; [tauto | intros [?| ->]; assumption].
      * intros key h Hg. destruct (list_eq_dec N.eq_dec key0 key) as [<-|Hne].
        -- rewrite Hget in Hg. injection Hg as <-.
           apply FirstBest_snoc_lower; auto.
        -- apply FirstBest_snoc_other; [congruence | auto].
  - assert (Hnot : ~ In key0 (map fst contentMap)) by now apply Map_get_None.
    intros [= <-]. split; [now apply Map_set_NoDup|]. split.
    + apply Hkeys'. intros key. rewrite Map_set_keys_absent by assumption.
      rewrite in_app_iff; simpl. intuition congruence.
    + intros key h. destruct (list_eq_dec N.eq_dec key0 key) as [<-|Hne].
      * rewrite Map_get_set_same. intros [= <-].
        exists seen, []. repeat split; auto.
        -- intros h' HIn Hk. exfalso. apply Hnot, Hkeys. eauto.
        -- intros h' [].
      * rewrite Map_get_set_other by assumption. intros Hg.
        apply FirstBest_snoc_other; [congruence | auto].
Qed.

Lemma forEachM_dedup_inv (l seen : list Hit) (contentMap contentMap' : Map Hit) :
  DedupInv seen contentMap ->
  forEachM dedupStep l contentMap = Ok contentMap' ->
  DedupInv (seen ++ l) contentMap'.
Proof.
  revert seen contentMap. induction l as [|x l IH]; simpl; intros seen cm Hinv.
  - intros [= <-]. now rewrite app_nil_r.
  - destruct (dedupStep cm x) as [cm1|] eqn:Hstep; simpl; [|discriminate].
    intros Hrest. replace (seen ++ x :: l) with ((seen ++ [x]) ++ l)
      by now rewrite <- app_assoc.
    eapply IH; [|exact Hrest]. eapply dedupStep_inv; eauto.
Qed.

Lemma DedupInv_nil : DedupInv [] [].
Proof.
  split; [constructor|]. split.
  - intros key; simpl. split; [tauto | intros (h & [] & _)].
  - intros key h; discriminate.
Qed.

Lemma dedup_inv (flat : list Hit) (contentMap : Map Hit) :
  dedup flat = Ok contentMap -> DedupInv flat contentMap.
Proof. intros H. apply (forEachM_dedup_inv flat [] [] contentMap DedupInv_nil H). Qed.

Lemma forEachM_dedup_total (l : list Hit) (contentMap : Map Hit) :
  forallb hasText l = true ->
  exists contentMap', forEachM dedupStep l contentMap = Ok contentMap'.
Proof.
  revert contentMap. induction l as [|x l IH]; simpl; intros cm; [eauto|].
  rewrite andb_true_iff. intros [Hx Hl].
  apply hasText_contentIdentifier in Hx as [key Hx].
  unfold dedupStep at 1. rewrite Hx; simpl.
  destruct (_ || _); simpl; apply IH; assumption.
Qed.

(** ** Sorting and truncation *)

Lemma sort_insert_perm (x : Hit) (l : list Hit) :
  Permutation (x :: l) (sort_insert byScoreDescending x l).
Proof.
  induction l as [|y l IH]; simpl; [reflexivity|].
  destruct (Qle_bool _ _); [reflexivity|].
  rewrite perm_swap. now constructor.
Qed.

Lemma sort_perm (l : list Hit) : Permutation l (sort byScoreDescending l).
Proof.
  induction l as [|x l IH]; simpl; [constructor|].
  rewrite <- sort_insert_perm. now constructor.
Qed.

Lemma sort_insert_HdRel (a x : Hit) (l : list Hit) :
  ScoreDescending a x -> HdRel ScoreDescending a l ->
  HdRel ScoreDescending a (sort_insert byScoreDescending x l).
Proof.
  intros Hax Hal. destruct l as [|y l]; simpl; [now constructor|].
  destruct (Qle_bool _ _); constructor; [assumption|].
  now inversion Hal.
Qed.

Lemma sort_insert_sorted (x : Hit) (l : list Hit) :
  Sorted ScoreDescending l ->
  Sorted ScoreDescending (sort_insert byScoreDescending x l).
Proof.
  induction 1 as [|y l Hs IH Hhd]; simpl; [repeat constructor|].
  destruct (Qle_bool (byScoreDescending x y) 0) eqn:E.
  - apply Qle_bool_iff in E. unfold byScoreDescending in E.
    repeat constructor; try assumption. unfold ScoreDescending. lra.
  - constructor; [assumption|].
    apply sort_insert_HdRel; [|assumption].
    unfold ScoreDescending.
    destruct (Qlt_le_dec (score x) (score y)) as [Hlt|Hle]; [lra|].
    exfalso. assert (Hc : (byScoreDescending x y <= 0)%Q)
      by (unfold byScoreDescending; lra).
    apply Qle_bool_iff in Hc. congruence.
Qed.

Lemma sort_sorted (l : list Hit) :
  Sorted ScoreDescending (sort byScoreDescending l).
Proof.
  induction l as [|x l IH]; simpl; [constructor|].
  now apply sort_insert_sorted.
Qed.

Lemma Sorted_firstn (A : Type) (R : A -> A -> Prop) (n : nat) (l : list A) :
  Sorted R l -> Sorted R (firstn n l).
Proof.
  revert l. induction n as [|n IH]; intros l Hs; simpl; [constructor|].
  destruct Hs as [|x l Hs Hhd]; [constructor|].
  constructor; [now apply IH|].
  destruct Hhd; destruct n; simpl; constructor; assumption.
Qed.

Lemma In_firstn (A : Type) (n : nat) (l : list A) (x : A) :
  In x (firstn n l) -> In x l.
Proof.
  revert l. induction n; intros [|y l]; simpl; try tauto.
  intros [->|H]; [now left | right; auto].
Qed.

Lemma NoDup_firstn (A : Type) (n : nat) (l : list A) :
  NoDup l -> NoDup (firstn n l).
Proof.
  revert l. induction n as [|n IH]; intros l ND; simpl; [constructor|].
  destruct ND as [|x l Hnot ND]; [constructor|].
  constructor; [|now apply IH].
  intros HIn. apply Hnot. eapply In_firstn; eauto.
Qed.

(** [slice(0, k)] for a count [k]: the first [k] elements. *)
Lemma slice_0_firstn (A : Type) (l : list A) (k : Z) :
  (0 <= k)%Z -> slice l 0 k = firstn (Z.to_nat k) l.
Proof.
  intros Hk. unfold slice. cbv zeta. change (0 <? 0)%Z with false. cbv iota.
  destruct (k <? 0)%Z eqn:E; [apply Z.ltb_lt in E; lia|].
  rewrite (Z.min_l 0) by lia. simpl skipn.
  destruct (Z.le_ge_cases k (Z.of_nat (length l))) as [Hle|Hge].
  - rewrite Z.min_l by lia. f_equal. lia.
  - rewrite Z.min_r by lia.
    rewrite !firstn_all2; [reflexivity | lia | lia].
Qed.

Lemma In_slice (A : Type) (l : list A) (start end_ : Z) (x : A) :
  In x (slice l start end_) -> In x l.
Proof.
  unfold slice. intros H. apply In_firstn in H.
  revert H. generalize (Z.to_nat
    (if (start <? 0)%Z then Z.max (Z.of_nat (length l) + start) 0
     else Z.min start (Z.of_nat (length l)))).
  intros n. revert l. induction n; intros [|y l]; simpl; auto.
Qed.

(** ** The merge step *)

Lemma mapM_contentIdentifier (l : list Hit) :
  (forall h, In h l -> exists key, contentIdentifier h = Ok key) ->
  mapM contentIdentifier l = Ok (map keyOf l).
Proof.
  induction l as [|x l IH]; simpl; intros H; [reflexivity|].
  destruct (H x (or_introl eq_refl)) as [key Hk].
  unfold keyOf at 1. rewrite Hk; simpl.
  rewrite IH by (intros; apply H; now right). reflexivity.
Qed.

Lemma DedupInv_entry (seen : list Hit) (contentMap : Map Hit) key h :
  DedupInv seen contentMap -> In (key, h) contentMap ->
  contentIdentifier h = Ok key /\ In h seen.
Proof.
  intros (ND & _ & Hbest) HIn.
  apply In_Map_get in HIn; [|assumption].
  destruct (Hbest _ _ HIn) as (before & after & -> & Hk & _).
  split; [assumption | apply in_or_app; right; now left].
Qed.

Lemma DedupInv_keys (seen : list Hit) (contentMap : Map Hit) :
  DedupInv seen contentMap ->
  map keyOf (Map_values contentMap) = map fst contentMap.
Proof.
  intros Hinv. unfold Map_values. rewrite map_map.
  apply map_ext_in. intros [key h] HIn; simpl.
  destruct (DedupInv_entry _ _ _ _ Hinv HIn) as [Hk _].
  unfold keyOf. now rewrite Hk.
Qed.

Lemma DedupInv_values (seen : list Hit) (contentMap : Map Hit) h :
  DedupInv seen contentMap -> In h (Map_values contentMap) ->
  In h seen /\ exists key, contentIdentifier h = Ok key.
Proof.
  intros Hinv HIn. unfold Map_values in HIn.
  apply in_map_iff in HIn as ([key h'] & <- & HIn).
  destruct (DedupInv_entry _ _ _ _ Hinv HIn) as [Hk Hs]. eauto.
Qed.

Lemma app_cons_split (A : Type) (b b' a a' : list A) (x x' : A) :
  b ++ x :: a = b' ++ x' :: a' ->
  (b = b' /\ x = x' /\ a = a') \/ (In x b' /\ In x' a) \/ (In x' b /\ In x a').
Proof.
  revert b'. induction b as [|y b IH]; intros [|y' b']; simpl; intros E.
  - inversion E; auto.
  - inversion E; subst. right; left. split; [now left|].
    apply in_or_app; right; now left.
  - inversion E; subst. right; right. split; [now left|].
    apply in_or_app; right; now left.
  - inversion E as [[Hy E']]; subst.
    destruct (IH _ E') as [(-> & -> & ->)|[[H1 H2]|[H1 H2]]]; auto.
Qed.

Lemma FirstBest_unique (flat : list Hit) (key : JSString) (h h' : Hit) :
  FirstBest flat key h -> FirstBest flat key h' -> h = h'.
Proof.
  intros (b & a & -> & Hk & Hb & Ha) (b' & a' & E & Hk' & Hb' & Ha').
  destruct (app_cons_split _ _ _ _ _ _ _ E) as [(_ & -> & _)|[[H1 H2]|[H1 H2]]];
    [reflexivity| |].
  - specialize (Hb' _ H1 Hk). specialize (Ha _ H2 Hk'). exfalso; lra.
  - specialize (Hb _ H1 Hk'). specialize (Ha' _ H2 Hk). exfalso; lra.
Qed.

Lemma mergeResults_total (flat : list Hit) (k : Z) :
  forallb hasText flat = true ->
  exists contentMap,
    dedup flat = Ok contentMap /\
    mergeResults flat k
    = Ok (slice (sort byScoreDescending (Map_values contentMap)) 0 k).
Proof.
  intros Hwf. destruct (forEachM_dedup_total flat [] Hwf) as [cm Hcm].
  exists cm. split; [exact Hcm|].
  unfold mergeResults. fold (dedup flat) in Hcm. now rewrite Hcm.
Qed.

(** C1. For every list of retrieval hits (hits with a content text) and every
    result count [k] (a count is a natural number), the merge step returns a
    list in which no two entries have the same identity key (the first 100
    code units of the content), in which every entry's score is at least the
    score of the entry that follows it, and whose length is at most [k]. *)
Theorem merge_invariants (flat : list Hit) (k : nat) :
  forallb hasText flat = true ->
  exists merged keys,
    mergeResults flat (Z.of_nat k) = Ok merged /\
    mapM contentIdentifier merged = Ok keys /\
    NoDup keys /\
    Sorted ScoreDescending merged /\
    length merged <= k.
Proof.
  intros Hwf.
  destruct (mergeResults_total flat (Z.of_nat k) Hwf) as (cm & Hcm & Hmerge).
  pose proof (dedup_inv _ _ Hcm) as Hinv.
  rewrite slice_0_firstn, Nat2Z.id in Hmerge by lia.
  set (sorted := sort byScoreDescending (Map_values cm)) in *.
  assert (Hperm : Permutation (Map_values cm) sorted) by apply sort_perm.
  exists (firstn k sorted), (map keyOf (firstn k sorted)).
  split; [exact Hmerge|]. split; [|split; [|split]].
  - apply mapM_contentIdentifier. intros h HIn. apply In_firstn in HIn.
    apply (Permutation_in _ (Permutation_sym Hperm)) in HIn.
    now apply (DedupInv_values _ _ _ Hinv) in HIn.
  - rewrite <- firstn_map. apply NoDup_firstn.
    apply (Permutation_NoDup (Permutation_map keyOf Hperm)).
    rewrite (DedupInv_keys _ _ Hinv). apply Hinv.
  - apply Sorted_firstn, sort_sorted.
  - apply firstn_le_length.
Qed.

(** C2. For every list of hits, the deduplication loop ends with a map that
    has exactly one entry for each identity key of the input, and the hit
    kept for a key is the one of highest score among the hits with that key,
    the first of them in input order when several share that score: hits
    before it have a strictly lower score, hits after it a lower or equal
    one.  No other hit is kept. *)
Theorem dedup_keeps_first_highest (flat : list Hit) :
  forallb hasText flat = true ->
  exists contentMap,
    dedup flat = Ok contentMap /\
    NoDup (map fst contentMap) /\
    (forall key, In key (map fst contentMap) <->
                 exists h, In h flat /\ contentIdentifier h = Ok key) /\
    (forall key h, In (key, h) contentMap <-> FirstBest flat key h).
Proof.
  intros Hwf. destruct (forEachM_dedup_total flat [] Hwf) as [cm Hcm].
  fold (dedup flat) in Hcm. exists cm. split; [exact Hcm|].
  destruct (dedup_inv _ _ Hcm) as (ND & Hkeys & Hbest).
  split; [exact ND|]. split; [exact Hkeys|].
  intros key h. split.
  - intros HIn. apply Hbest. now apply In_Map_get.
  - intros HF.
    assert (HInKey : In key (map fst cm)).
    { apply Hkeys. destruct HF as (before & after & -> & Hk & _).
      exists h. split; [apply in_or_app; right; now left | exact Hk]. }
    destruct (Map_get cm key) as [h'|] eqn:Hget;
      [|now apply Map_get_None in Hget].
    pose proof (Hbest _ _ Hget) as HF'.
    rewrite (FirstBest_unique _ _ _ _ HF HF'). now apply Map_get_In.
Qed.

Lemma slice_nil (A : Type) (start end_ : Z) : slice (@nil A) start end_ = [].
Proof. unfold slice; simpl. rewrite skipn_nil. apply firstn_nil. Qed.

Lemma mergeResults_nil (k : Z) : mergeResults [] k = Ok [].
Proof. unfold mergeResults, dedup; simpl. f_equal. apply slice_nil. Qed.

(** C7. With no hit at all (every search of the fan-out came back empty) the
    merge step returns the empty list, for every [k], and raises nothing. *)
Theorem merge_of_no_hits (k : Z) : mergeResults [] k = Ok [].
Proof. exact (mergeResults_nil k). Qed.

(** C9. Every entry returned by the merge step is one of the hits it was
    given, as it was given: same content, metadata, score and query tag.
    When the hits are those of the fan-out of a request, that list is the
    result of the retrieval. *)
Theorem merge_returns_input_hits (flat : list Hit) (k : Z) :
  forallb hasText flat = true ->
  exists merged,
    mergeResults flat k = Ok merged /\
    (forall h, In h merged -> In h flat) /\
    (forall svc originalQuery allResults,
        fanOutResults svc originalQuery k = Ok allResults ->
        concat allResults = flat ->
        parallelQuerySearch svc originalQuery k = Ok merged).
Proof.
  intros Hwf.
  destruct (mergeResults_total flat k Hwf) as (cm & Hcm & Hmerge).
  eexists; split; [exact Hmerge|]. split.
  - intros h HIn. apply In_slice in HIn.
    apply (Permutation_in _ (Permutation_sym (sort_perm _))) in HIn.
    now apply (DedupInv_values _ _ _ (dedup_inv _ _ Hcm)) in HIn.
  - intros svc originalQuery allResults Hfan Hflat.
    unfold parallelQuerySearch, parallelQuerySearch_try.
    rewrite Hfan. simpl. now rewrite Hflat, Hmerge.
Qed.

Lemma merge_invariants_witness :
  forallb hasText sampleHits = true /\
  exists merged keys,
    mergeResults sampleHits (Z.of_nat 2) = Ok merged /\
    mapM contentIdentifier merged = Ok keys /\
    NoDup keys /\
    Sorted ScoreDescending merged /\
    length merged <= 2.
Proof.
  split; [reflexivity|].
  apply (merge_invariants sampleHits 2); reflexivity.
Defined.

Lemma dedup_keeps_first_highest_witness :
  forallb hasText sampleHits = true /\
  exists contentMap,
    dedup sampleHits = Ok contentMap /\
    NoDup (map fst contentMap) /\
    (forall key, In key (map fst contentMap) <->
                 exists h, In h sampleHits /\ contentIdentifier h = Ok key) /\
    (forall key h, In (key, h) contentMap <-> FirstBest sampleHits key h).
Proof.
  split; [reflexivity|].
  apply (dedup_keeps_first_highest sampleHits); reflexivity.
Defined.

Lemma merge_returns_input_hits_witness :
  forallb hasText sampleHits = true /\
  (fanOutResults requestServices (str "streams") 2
   = Ok [ [ sampleHit "Streams are collections of data" 0.9 "streams";
            sampleHit "The event loop" 0.8 "streams" ];
          [ sampleHit "Streams are collections of data" 0.95 "how do streams work";
            sampleHit "Buffers hold raw bytes" 0.7 "how do streams work" ];
          [ sampleHit "The event loop" 0.8 "stream examples" ] ]) /\
  exists merged,
    mergeResults sampleHits 2 = Ok merged /\
    (forall h, In h merged -> In h sampleHits) /\
    parallelQuerySearch requestServices (str "streams") 2 = Ok merged.
Proof.
  assert (Hfan : fanOutResults requestServices (str "streams") 2
                 = Ok [ [ sampleHit "Streams are collections of data" 0.9 "streams";
                          sampleHit "The event loop" 0.8 "streams" ];
                        [ sampleHit "Streams are collections of data" 0.95
                            "how do streams work";
                          sampleHit "Buffers hold raw bytes" 0.7
                            "how do streams work" ];
                        [ sampleHit "The event loop" 0.8 "stream examples" ] ])
    by reflexivity.
  split; [reflexivity|]. split; [exact Hfan|].
  destruct (merge_returns_input_hits sampleHits 2 eq_refl)
    as (merged & Hmerge & Hin & Hpipeline).
  exists merged. split; [exact Hmerge|]. split; [exact Hin|].
  exact (Hpipeline requestServices (str "streams") _ Hfan eq_refl).
Defined.

(** The merge of the sample hits, computed. *)
Example mergeResults_sample :
  mergeResults sampleHits 2
  = Ok [ sampleHit "Streams are collections of data" 0.95 "how do streams work";
         sampleHit "The event loop" 0.8 "streams" ].
Proof. reflexivity. Qed.

Example mergeResults_sample_all :
  mergeResults sampleHits 4
  = Ok [ sampleHit "Streams are collections of data" 0.95 "how do streams work";
         sampleHit "The event loop" 0.8 "streams";
         sampleHit "Buffers hold raw bytes" 0.7 "how do streams work" ].
Proof. reflexivity. Qed.

(** ** Query expansion *)

Lemma parseVariations_first (originalQuery responseText : JSString)
      (variations : list JSON) :
  parseVariations originalQuery responseText = Ok variations ->
  exists rest, variations = JString originalQuery :: rest.
Proof.
  unfold parseVariations.
  destruct (JSON_parse _) as [v|]; simpl; [|discriminate].
  destruct (spread v) as [rest|]; simpl; [|discriminate].
  intros [= <-]. eauto.
Qed.

(** C3. Whatever the generative service does (a reply that parses, a reply
    that does not, a failed call), the query expander returns a sequence of
    at least one element whose first element is the original query; this
    holds for every query string, empty or not. *)
Theorem generateQueryVariations_original_first
        (svc : Services) (originalQuery : JSString) :
  hd_error (generateQueryVariations svc originalQuery)
  = Some (JString originalQuery) /\
  1 <= length (generateQueryVariations svc originalQuery).
Proof.
  unfold generateQueryVariations.
  destruct (generateContent svc _) as [responseText|].
  - destruct (parseVariations originalQuery responseText) as [variations|] eqn:E.
    + apply parseVariations_first in E as [rest ->]. simpl. split; [reflexivity|lia].
    + simpl. split; [reflexivity|lia].
  - simpl. split; [reflexivity|lia].
Qed.

(** C4. When the reply of the generative service, once the code fences are
    removed and the text trimmed, is not JSON, the query expander returns
    four elements: the original query and three sentences built from it by
    fixed templates.  The result is a value of the query alone: no service
    is called and nothing is parsed to build it. *)
Theorem generateQueryVariations_parse_failure
        (svc : Services) (originalQuery responseText : JSString) (e : Error) :
  generateContent svc (prompt_for originalQuery) = Ok responseText ->
  JSON_parse (jsonTextOf responseText) = Throw e ->
  generateQueryVariations svc originalQuery
  = [ JString originalQuery;
      JString (str "What are the technical aspects of " ++ originalQuery ++ str "?");
      JString (str "Examples of " ++ originalQuery ++ str " in Node.js");
      JString (str "Explain the concept of " ++ originalQuery ++ str " in Node.js") ]
  /\ length (generateQueryVariations svc originalQuery) = 4.
Proof.
  intros Hcall Hparse. unfold generateQueryVariations, parseVariations.
  rewrite Hcall. cbv zeta. rewrite Hparse. simpl. split; reflexivity.
Qed.

Lemma generateQueryVariations_parse_failure_witness :
  generateContent proseServices (prompt_for (str "streams"))
  = Ok (str "Here are three variations of your query.") /\
  JSON_parse (jsonTextOf (str "Here are three variations of your query."))
  = Throw SyntaxError /\
  generateQueryVariations proseServices (str "streams")
  = [ JString (str "streams");
      JString (str "What are the technical aspects of " ++ str "streams" ++ str "?");
      JString (str "Examples of " ++ str "streams" ++ str " in Node.js");
      JString (str "Explain the concept of " ++ str "streams" ++ str " in Node.js") ]
  /\ length (generateQueryVariations proseServices (str "streams")) = 4.
Proof.
  split; [reflexivity|]. split; [reflexivity|].
  apply (generateQueryVariations_parse_failure proseServices (str "streams")
           (str "Here are three variations of your query.") SyntaxError);
    reflexivity.
Defined.

(** C5, as amended.  When the call succeeds and the cleaned reply parses as a
    JSON array, the result is the original query followed by the elements of
    that array, in order, whatever their number and kind; its length is 4
    exactly when the array has three elements. *)
Theorem generateQueryVariations_parsed_array
        (svc : Services) (originalQuery responseText : JSString)
        (elements : list JSON) :
  generateContent svc (prompt_for originalQuery) = Ok responseText ->
  JSON_parse (jsonTextOf responseText) = Ok (JArray elements) ->
  generateQueryVariations svc originalQuery = JString originalQuery :: elements /\
  (length (generateQueryVariations svc originalQuery) = 4 <-> length elements = 3).
Proof.
  intros Hcall Hparse.
  assert (E : generateQueryVariations svc originalQuery
              = JString originalQuery :: elements).
  { unfold generateQueryVariations, parseVariations.
    rewrite Hcall. cbv zeta. rewrite Hparse. reflexivity. }
  rewrite E. simpl. split; [reflexivity | lia].
Qed.

Lemma generateQueryVariations_parsed_array_witness :
  generateContent twoVariationServices (prompt_for (str "streams")) = Ok replyOfTwo /\
  JSON_parse (jsonTextOf replyOfTwo)
  = Ok (JArray [JString (str "how do streams work"); JString (str "stream examples")]) /\
  generateQueryVariations twoVariationServices (str "streams")
  = [ JString (str "streams");
      JString (str "how do streams work"); JString (str "stream examples") ] /\
  (length (generateQueryVariations twoVariationServices (str "streams")) = 4 <->
   length [JString (str "how do streams work"); JString (str "stream examples")] = 3).
Proof.
  split; [reflexivity|]. split; [reflexivity|].
  apply (generateQueryVariations_parsed_array twoVariationServices (str "streams")
           replyOfTwo); reflexivity.
Defined.

(** A reply that parses to a value that cannot be spread (a number, a
    boolean, null, an object) is handled by the same [catch] as a reply that
    does not parse. *)
Lemma generateQueryVariations_not_iterable
      (svc : Services) (originalQuery responseText : JSString) (v : JSON) (e : Error) :
  generateContent svc (prompt_for originalQuery) = Ok responseText ->
  JSON_parse (jsonTextOf responseText) = Ok v ->
  spread v = Throw e ->
  generateQueryVariations svc originalQuery = templatedVariations originalQuery.
Proof.
  intros Hcall Hparse Hspread. unfold generateQueryVariations, parseVariations.
  rewrite Hcall. cbv zeta. rewrite Hparse. simpl. now rewrite Hspread.
Qed.

(** C5 as stated fails: the reply [replyOfTwo] is received, parses as JSON, and
    the result has three elements, not four. *)
Lemma generateQueryVariations_not_always_four :
  generateContent twoVariationServices (prompt_for (str "streams")) = Ok replyOfTwo /\
  JSON_parse (jsonTextOf replyOfTwo)
  = Ok (JArray [JString (str "how do streams work"); JString (str "stream examples")]) /\
  length (generateQueryVariations twoVariationServices (str "streams")) = 3 /\
  length (generateQueryVariations twoVariationServices (str "streams")) <> 4.
Proof.
  split; [reflexivity|]. split; [reflexivity|]. split; [reflexivity|].
  vm_compute. discriminate.
Qed.

(** ** Fan-out *)

Lemma logged_ok (q : JSON) : logged q = Ok tt <-> stringifiable q = true.
Proof. unfold logged. destruct (stringifiable q); split; congruence. Qed.

Lemma logVariations_ok (qs : list JSON) :
  logVariations qs = Ok tt <-> forallb stringifiable qs = true.
Proof.
  unfold logVariations. induction qs as [|q qs IH]; simpl; [tauto|].
  unfold logged at 1. destruct (stringifiable q); simpl; [exact IH|].
  split; discriminate.
Qed.

Lemma singleQuerySearch_hitsFound (svc : Services) (q : JSON) (k : Z) :
  stringifiable q = true ->
  singleQuerySearch svc q k = Ok (hitsFound svc k q).
Proof.
  intros Hq. unfold singleQuerySearch, hitsFound, logged. rewrite Hq.
  destruct (singleQuerySearch_try svc q k); reflexivity.
Qed.

Lemma fanOut_hitsFound (svc : Services) (qs : list JSON) (k : Z) :
  forallb stringifiable qs = true ->
  fanOut svc qs k = Ok (map (hitsFound svc k) qs).
Proof.
  unfold fanOut. induction qs as [|q qs IH]; simpl; [reflexivity|].
  rewrite andb_true_iff. intros [Hq Hqs].
  now rewrite (singleQuerySearch_hitsFound svc q k Hq), (IH Hqs).
Qed.

Lemma fanOutResults_hitsFound (svc : Services) (originalQuery : JSString) (k : Z) :
  forallb stringifiable (generateQueryVariations svc originalQuery) = true ->
  fanOutResults svc originalQuery k
  = Ok (map (hitsFound svc k) (generateQueryVariations svc originalQuery)).
Proof.
  intros Hqs. unfold fanOutResults. cbv zeta.
  rewrite (proj2 (logVariations_ok _) Hqs). simpl.
  now apply fanOut_hitsFound.
Qed.

(** The fan-out of a request is reached exactly when the console line of
    every variation was written; otherwise the [try] block has thrown before
    any search was started. *)
Lemma fanOutResults_reached (svc : Services) (originalQuery : JSString) (k : Z) :
  (logVariations (generateQueryVariations svc originalQuery) = Ok tt /\
   fanOutResults svc originalQuery k
   = fanOut svc (generateQueryVariations svc originalQuery) k /\
   exists allResults, fanOutResults svc originalQuery k = Ok allResults) \/
  (logVariations (generateQueryVariations svc originalQuery) = Throw TypeError /\
   fanOutResults svc originalQuery k = Throw TypeError).
Proof.
  destruct (forallb stringifiable (generateQueryVariations svc originalQuery))
    eqn:Hqs.
  - left. pose proof (proj2 (logVariations_ok _) Hqs) as Hlog.
    split; [exact Hlog|]. split.
    + unfold fanOutResults. cbv zeta. now rewrite Hlog.
    + rewrite (fanOutResults_hitsFound svc originalQuery k Hqs). eauto.
  - right.
    assert (Hlog : logVariations (generateQueryVariations svc originalQuery)
                   = Throw TypeError).
    { revert Hqs. unfold logVariations.
      induction (generateQueryVariations svc originalQuery) as [|q qs IH];
        simpl; [discriminate|].
      unfold logged at 1. destruct (stringifiable q); simpl; [exact IH|reflexivity]. }
    split; [exact Hlog|].
    unfold fanOutResults. cbv zeta. now rewrite Hlog.
Qed.

(** C6. In a fan-out batch (the batch is reached once the console line of
    every variation is written) a variation whose search fails (the
    embedding call, the search call or the reading of a reply throws)
    contributes the empty list: its search returns [[]] and does not throw,
    the batch holds, in order, what the searches of the other variations
    found, and what goes to the merge step is the concatenation of that. *)
Theorem fanOut_survives_failed_search
        (svc : Services) (before after : list JSON) (q : JSON) (k : Z) (e : Error) :
  logVariations (before ++ q :: after) = Ok tt ->
  singleQuerySearch_try svc q k = Throw e ->
  singleQuerySearch svc q k = Ok [] /\
  fanOut svc (before ++ q :: after) k
  = Ok (map (hitsFound svc k) before ++ [] :: map (hitsFound svc k) after) /\
  (forall v, In v (before ++ after) ->
             singleQuerySearch svc v k = Ok (hitsFound svc k v)) /\
  (forall originalQuery,
      generateQueryVariations svc originalQuery = before ++ q :: after ->
      parallelQuerySearch_try svc originalQuery k
      = mergeResults (concat (map (hitsFound svc k) before)
                      ++ concat (map (hitsFound svc k) after)) k).
Proof.
  intros Hlog Hfail. apply logVariations_ok in Hlog.
  assert (Hall : forall v, In v (before ++ q :: after) -> stringifiable v = true)
    by now apply forallb_forall.
  assert (Hq : hitsFound svc k q = []) by (unfold hitsFound; now rewrite Hfail).
  assert (Hfan : fanOut svc (before ++ q :: after) k
                 = Ok (map (hitsFound svc k) before
                       ++ [] :: map (hitsFound svc k) after)).
  { rewrite (fanOut_hitsFound svc _ k Hlog), map_app. simpl. now rewrite Hq. }
  split; [|split; [exact Hfan|split]].
  - rewrite <- Hq. apply singleQuerySearch_hitsFound, Hall.
    apply in_or_app. right. now left.
  - intros v HIn. apply singleQuerySearch_hitsFound, Hall.
    apply in_app_or in HIn as [H|H]; apply in_or_app; [now left | right; now right].
  - intros originalQuery Hvars.
    unfold parallelQuerySearch_try, fanOutResults. cbv zeta.
    rewrite Hvars, (proj2 (logVariations_ok _) Hlog). simpl.
    rewrite Hfan. simpl. now rewrite concat_app.
Qed.

Lemma fanOut_survives_failed_search_witness :
  logVariations ([JString (str "streams")] ++ JString (str "how do streams work")
                   :: [JString (str "stream examples")]) = Ok tt /\
  singleQuerySearch_try failingVariationServices
    (JString (str "how do streams work")) 4
  = Throw (RemoteError (str "timeout")) /\
  generateQueryVariations failingVariationServices (str "streams")
  = [JString (str "streams")] ++ JString (str "how do streams work")
      :: [JString (str "stream examples")] /\
  singleQuerySearch failingVariationServices
    (JString (str "how do streams work")) 4 = Ok [] /\
  fanOut failingVariationServices
    ([JString (str "streams")] ++ JString (str "how do streams work")
       :: [JString (str "stream examples")]) 4
  = Ok (map (hitsFound failingVariationServices 4) [JString (str "streams")]
        ++ [] :: map (hitsFound failingVariationServices 4)
                   [JString (str "stream examples")]) /\
  parallelQuerySearch_try failingVariationServices (str "streams") 4
  = mergeResults
      (concat (map (hitsFound failingVariationServices 4) [JString (str "streams")])
       ++ concat (map (hitsFound failingVariationServices 4)
                    [JString (str "stream examples")])) 4.
Proof.
  assert (Hvars : generateQueryVariations failingVariationServices (str "streams")
                  = [JString (str "streams")] ++ JString (str "how do streams work")
                      :: [JString (str "stream examples")]) by reflexivity.
  split; [reflexivity|]. split; [reflexivity|]. split; [exact Hvars|].
  destruct (fanOut_survives_failed_search failingVariationServices
              [JString (str "streams")] [JString (str "stream examples")]
              (JString (str "how do streams work")) 4
              (RemoteError (str "timeout")) eq_refl eq_refl)
    as (Hempty & Hfan & _ & Hmerge).
  split; [exact Hempty|]. split; [exact Hfan|].
  exact (Hmerge (str "streams") Hvars).
Defined.

(** That request, computed: the hits of the two other searches are merged. *)
Example parallelQuerySearch_failing_variation :
  fanOutResults failingVariationServices (str "streams") 4
  = Ok [ [ sampleHit "Streams are collections of data" 0.9 "streams";
           sampleHit "The event loop" 0.8 "streams" ];
         [];
         [ sampleHit "The event loop" 0.8 "stream examples" ] ] /\
  parallelQuerySearch failingVariationServices (str "streams") 4
  = Ok [ sampleHit "Streams are collections of data" 0.9 "streams";
         sampleHit "The event loop" 0.8 "streams" ].
Proof. split; reflexivity. Qed.

(** ** The whole retrieval *)

Lemma singleQuerySearch_string (svc : Services) (text : JSString) (k : Z) :
  singleQuerySearch svc (JString text) k = Ok (hitsFound svc k (JString text)).
Proof. now apply singleQuerySearch_hitsFound. Qed.

Lemma parallelQuerySearch_returns
      (svc : Services) (originalQuery : JSString) (k : Z) :
  exists hits, parallelQuerySearch svc originalQuery k = Ok hits.
Proof.
  unfold parallelQuerySearch.
  destruct (parallelQuerySearch_try svc originalQuery k); [eauto|].
  rewrite singleQuerySearch_string. eauto.
Qed.

(** C10. When the [try] block of the retrieval (query expansion, console
    lines, fan-out, merge) throws, the error is caught and the result is that
    of a single search of the original query with the same limit; that search
    returns, so no error reaches the caller. *)
Theorem parallelQuerySearch_falls_back
        (svc : Services) (originalQuery : JSString) (k : Z) (e : Error) :
  parallelQuerySearch_try svc originalQuery k = Throw e ->
  parallelQuerySearch svc originalQuery k
  = singleQuerySearch svc (JString originalQuery) k /\
  exists hits, parallelQuerySearch svc originalQuery k = Ok hits.
Proof.
  intros Hthrow. split; [|apply parallelQuerySearch_returns].
  unfold parallelQuerySearch. now rewrite Hthrow.
Qed.

Lemma parallelQuerySearch_falls_back_witness :
  parallelQuerySearch_try foreignServices (str "streams") 4 = Throw TypeError /\
  parallelQuerySearch foreignServices (str "streams") 4
  = singleQuerySearch foreignServices (JString (str "streams")) 4 /\
  exists hits, parallelQuerySearch foreignServices (str "streams") 4 = Ok hits.
Proof.
  split; [reflexivity|].
  apply (parallelQuerySearch_falls_back foreignServices (str "streams") 4 TypeError).
  reflexivity.
Defined.

(** Without an exception the result is the merge of the fan-out. *)
Lemma parallelQuerySearch_merged
      (svc : Services) (originalQuery : JSString) (k : Z)
      (allResults : list (list Hit)) (merged : list Hit) :
  fanOutResults svc originalQuery k = Ok allResults ->
  mergeResults (concat allResults) k = Ok merged ->
  parallelQuerySearch svc originalQuery k = Ok merged.
Proof.
  intros Hfan H. unfold parallelQuerySearch, parallelQuerySearch_try.
  rewrite Hfan. simpl. now rewrite H.
Qed.

(** ** Batch indexing *)

Lemma mapM_length (A B : Type) (f : A -> Result B) (l : list A) (r : list B) :
  mapM f l = Ok r -> length r = length l.
Proof.
  revert r. induction l as [|x l IH]; simpl; intros r.
  - intros [= <-]. reflexivity.
  - destruct (f x); simpl; [|discriminate].
    destruct (mapM f l) as [ys|]; simpl; [|discriminate].
    intros [= <-]. simpl. now rewrite (IH ys).
Qed.

Lemma map_combine_indexed (A B C : Type) (g : nat -> A -> B -> C) (h : A -> C)
      (l : list A) (l' : list B) (a : nat) :
  length l' = length l ->
  (forall n x y, g n x y = h x) ->
  map (fun '(n, (x, y)) => g n x y) (combine (seq a (length l)) (combine l l'))
  = map h l.
Proof.
  intros Hlen Hg. revert l' a Hlen.
  induction l as [|x l IH]; intros [|y l'] a Hlen; simpl in *; try discriminate;
    [reflexivity|].
  rewrite Hg. f_equal. apply IH. lia.
Qed.

Section IndexingFacts.

Variable svc : Services.
Variable store : VectorStore.
Variable name : JSString.

Lemma embedBatch_ok (batch : list Document) (w w' : World) (points : list Point) :
  embedBatch svc store batch w = (Ok points, w') ->
  calls w' = calls w ++ map (fun p => CallEmbed (content p)) points /\
  map content points = map doc_pageContent batch.
Proof.
  unfold embedBatch.
  destruct (mapM _ batch) as [embeddings|] eqn:E; [|discriminate].
  apply mapM_length in E. intros [= <- <-]. simpl.
  match goal with
  | |- _ /\ map content ?pts = _ =>
      assert (Hc : map content pts = map doc_pageContent batch)
  end.
  { rewrite map_map.
    rewrite <- (map_combine_indexed _ _ _
                  (fun (_ : nat) (doc : Document) (_ : list Q) => doc_pageContent doc)
                  doc_pageContent batch embeddings 0 E (fun _ _ _ => eq_refl)).
    apply map_ext. intros [n [doc embedding]]. reflexivity. }
  split; [|exact Hc].
  f_equal. rewrite <- (map_map content CallEmbed), Hc. now rewrite map_map.
Qed.

Lemma processBatch_ok (batch : list Document) (w w' : World) (u : unit) :
  processBatch svc store name batch w = (Ok u, w') ->
  exists points,
    calls w' = calls w ++ batchCalls name points /\
    map content points = map doc_pageContent batch.
Proof.
  unfold processBatch, bindM, call.
  destruct (embedBatch svc store batch w) as [[points|e] w1] eqn:E; [|discriminate].
  apply embedBatch_ok in E as [Hcalls Hcontent].
  intros [= _ <-]. exists points. simpl. unfold batchCalls.
  rewrite Hcalls, <- app_assoc. split; [reflexivity | exact Hcontent].
Qed.

Lemma slice_batch (A : Type) (l : list A) (i : Z) :
  (0 <= i < Z.of_nat (length l))%Z ->
  slice l i (Z.min (i + batchSize) (Z.of_nat (length l)))
  = firstn 20 (skipn (Z.to_nat i) l).
Proof.
  intros Hi. unfold slice, batchSize. cbv zeta.
  destruct (i <? 0)%Z eqn:E1; [apply Z.ltb_lt in E1; lia|].
  destruct (Z.min (i + 20) (Z.of_nat (length l)) <? 0)%Z eqn:E2;
    [apply Z.ltb_lt in E2; lia|].
  rewrite (Z.min_l i) by lia.
  destruct (Z.le_ge_cases (i + 20) (Z.of_nat (length l))) as [Hle|Hge].
  - f_equal. lia.
  - rewrite !firstn_all2; [reflexivity | rewrite length_skipn; lia
                           | rewrite length_skipn; lia].
Qed.

Lemma batchLoop_spec (documents : list Document) (fuel : nat) :
  forall (i : Z) (w : World),
    (0 <= i)%Z ->
    (i < Z.of_nat (length documents) + 20)%Z ->
    (Z.of_nat (length documents) - i + 20 <= 20 * Z.of_nat fuel)%Z ->
    exists r w',
      batchLoop svc store name fuel documents i w = Some (r, w') /\
      (r = Ok tt ->
       exists pointss,
         calls w' = calls w ++ flat_map (batchCalls name) pointss /\
         map content (concat pointss)
         = map doc_pageContent (skipn (Z.to_nat i) documents) /\
         Forall (fun points => length points = 20) (removelast pointss) /\
         Forall (fun points => 1 <= length points <= 20) pointss /\
         (Z.of_nat (length pointss)
          = (Z.max (Z.of_nat (length documents) - i) 0 + 19) / 20)%Z).
Proof.
  induction fuel as [|fuel IH]; intros i w Hi0 Hi1 Hfuel; [lia|].
  simpl. destruct (i <? Z.of_nat (length documents))%Z eqn:Hlt.
  - apply Z.ltb_lt in Hlt. rewrite slice_batch by lia.
    set (batch := firstn 20 (skipn (Z.to_nat i) documents)).
    assert (Hlen : length batch = Nat.min 20 (length documents - Z.to_nat i))
      by (unfold batch; now rewrite length_firstn, length_skipn).
    destruct (processBatch svc store name batch w) as [[u|e] w1] eqn:EP.
    + apply processBatch_ok in EP as (points & Hcalls & Hcontent).
      assert (Hpts : length points = length batch).
      { rewrite <- (length_map content points), Hcontent. apply length_map. }
      destruct (IH (i + batchSize)%Z w1) as (r & w' & Hloop & Hok);
        [unfold batchSize; lia .. |].
      exists r, w'. split; [exact Hloop|]. intros Hr.
      destruct (Hok Hr) as (pointss & H1 & H2 & H3 & H4 & H5).
      unfold batchSize in *.
      assert (Hcount : (Z.of_nat (length (points :: pointss))
                        = (Z.max (Z.of_nat (length documents) - i) 0 + 19) / 20)%Z).
      { simpl length. rewrite Nat2Z.inj_succ, H5.
        Z.to_euclidean_division_equations. lia. }
      exists (points :: pointss). repeat split.
      * rewrite H1, Hcalls. simpl. now rewrite <- app_assoc.
      * simpl. rewrite map_app, Hcontent, H2.
        replace (Z.to_nat (i + 20)) with (20 + Z.to_nat i) by lia.
        rewrite <- skipn_skipn, <- map_app. unfold batch.
        now rewrite firstn_skipn.
      * destruct pointss as [|points' pointss]; [constructor|].
        change (removelast (points :: points' :: pointss))
          with (points :: removelast (points' :: pointss)).
        constructor; [|exact H3].
        simpl length in H5.
        assert (20 < Z.of_nat (length documents) - i)%Z.
        { destruct (Z.le_gt_cases (Z.of_nat (length documents) - i) 20) as [Hs|Hb];
            [|lia].
          rewrite (Z.max_r _ 0) in H5 by lia.
          replace ((0 + 19) / 20)%Z with 0%Z in H5 by reflexivity. lia. }
        lia.
      * constructor; [lia | exact H4].
      * exact Hcount.
    + exists (Throw e), w1. split; [reflexivity | discriminate].
  - apply Z.ltb_ge in Hlt. exists (Ok tt), w. split; [reflexivity|].
    intros _. exists []. simpl. rewrite app_nil_r.
    repeat split; try constructor.
    + rewrite skipn_all2 by lia. reflexivity.
    + rewrite Z.max_r by lia. reflexivity.
Qed.

Lemma upsertCalls_app (l1 l2 : list Call) :
  upsertCalls (l1 ++ l2) = upsertCalls l1 ++ upsertCalls l2.
Proof. apply flat_map_app. Qed.

Lemma embedCalls_app (l1 l2 : list Call) :
  embedCalls (l1 ++ l2) = embedCalls l1 ++ embedCalls l2.
Proof. apply flat_map_app. Qed.

Lemma upsertCalls_embeds (points : list Point) :
  upsertCalls (map (fun p => CallEmbed (content p)) points) = [].
Proof. induction points as [|p points IH]; simpl; auto. Qed.

Lemma embedCalls_embeds (points : list Point) :
  embedCalls (map (fun p => CallEmbed (content p)) points) = map content points.
Proof.
  induction points as [|p points IH]; simpl; [reflexivity | now rewrite IH].
Qed.

Lemma upsertCalls_batchCalls (points : list Point) :
  upsertCalls (batchCalls name points) = [points].
Proof.
  unfold batchCalls. now rewrite upsertCalls_app, upsertCalls_embeds.
Qed.

Lemma embedCalls_batchCalls (points : list Point) :
  embedCalls (batchCalls name points) = map content points.
Proof.
  unfold batchCalls. rewrite embedCalls_app, embedCalls_embeds. simpl.
  apply app_nil_r.
Qed.

Lemma upsertCalls_batches (pointss : list (list Point)) :
  upsertCalls (flat_map (batchCalls name) pointss) = pointss.
Proof.
  induction pointss as [|points pointss IH]; simpl; [reflexivity|].
  now rewrite upsertCalls_app, upsertCalls_batchCalls, IH.
Qed.

Lemma embedCalls_batches (pointss : list (list Point)) :
  embedCalls (flat_map (batchCalls name) pointss) = map content (concat pointss).
Proof.
  induction pointss as [|points pointss IH]; simpl; [reflexivity|].
  now rewrite embedCalls_app, embedCalls_batchCalls, IH, map_app.
Qed.

Lemma createCollectionIfNotExists_ok (w w' : World) (u : unit) :
  createCollectionIfNotExists store name w = (Ok u, w') ->
  exists setup,
    calls w' = calls w ++ setup /\
    (setup = [CallGetCollections] \/
     setup = [CallGetCollections; CallCreateCollection name vectorSize]).
Proof.
  unfold createCollectionIfNotExists, bindM, call, ret.
  destruct (getCollections store) as [collections|]; [|discriminate].
  destruct (negb _).
  - destruct (createCollection store name vectorSize);
      intros E; inversion E; subst; simpl.
    exists [CallGetCollections; CallCreateCollection name vectorSize].
    rewrite <- app_assoc. simpl. auto.
  - intros E; inversion E; subst; simpl. eauto.
Qed.

Lemma addDocumentsToVectorStore_success (documents : list Document) (w : World) :
  exists r w',
    addDocumentsToVectorStore svc store name documents w = Some (r, w') /\
    (r = Ok tt ->
     exists setup pointss,
       calls w' = calls w ++ setup ++ flat_map (batchCalls name) pointss /\
       (setup = [CallGetCollections] \/
        setup = [CallGetCollections; CallCreateCollection name vectorSize]) /\
       Forall (fun points => length points = 20) (removelast pointss) /\
       Forall (fun points => 1 <= length points <= 20) pointss /\
       upsertCalls (setup ++ flat_map (batchCalls name) pointss) = pointss /\
       (Z.of_nat (length pointss) = (Z.of_nat (length documents) + 19) / 20)%Z /\
       embedCalls (setup ++ flat_map (batchCalls name) pointss)
       = map doc_pageContent documents /\
       map content (concat pointss) = map doc_pageContent documents).
Proof.
  unfold addDocumentsToVectorStore.
  destruct (createCollectionIfNotExists store name w) as [[u|e] w1] eqn:Esetup.
  - apply createCollectionIfNotExists_ok in Esetup as (setup & Hsetup & Hshape).
    destruct (batchLoop_spec documents (S (length documents)) 0 w1)
      as (r & w' & Hloop & Hok); [lia ..|].
    exists r, w'. split; [exact Hloop|]. intros Hr.
    destruct (Hok Hr) as (pointss & H1 & H2 & H3 & H4 & H5).
    simpl in H2. rewrite Z.sub_0_r, Z.max_l in H5 by lia.
    exists setup, pointss.
    assert (Hu : upsertCalls setup = [] /\ embedCalls setup = [])
      by (destruct Hshape as [-> | ->]; split; reflexivity).
    destruct Hu as [Hu He].
    rewrite upsertCalls_app, embedCalls_app, Hu, He,
      upsertCalls_batches, embedCalls_batches. simpl.
    rewrite H1, Hsetup, <- app_assoc. repeat split; auto.
  - exists (Throw e), w1. split; [reflexivity | discriminate].
Qed.

End IndexingFacts.

(** A run of the indexing on twenty-one documents with services that all
    answer: there are two upserts, of 20 points and of 1 point. *)
Example addDocumentsToVectorStore_sample :
  exists w',
    addDocumentsToVectorStore twoVariationServices sampleStore
      (str "learning_langchain") sampleDocuments emptyWorld = Some (Ok tt, w') /\
    map (@length Point) (upsertCalls (calls w')) = [20; 1] /\
    embedCalls (calls w') = map doc_pageContent sampleDocuments.
Proof. eexists. split; [vm_compute; reflexivity|]. split; reflexivity. Qed.


(** * Further properties of the retrieval *)

(** ** What the merge keeps *)

Lemma mergeResults_inv (flat : list Hit) (k : Z) (merged : list Hit) :
  mergeResults flat k = Ok merged ->
  exists contentMap,
    DedupInv flat contentMap /\
    merged = slice (sort byScoreDescending (Map_values contentMap)) 0 k.
Proof.
  unfold mergeResults. destruct (dedup flat) as [cm|] eqn:Hcm; simpl; [|discriminate].
  intros [= <-]. exists cm. split; [now apply dedup_inv | reflexivity].
Qed.

Lemma sorted_values_facts (flat : list Hit) (contentMap : Map Hit) :
  DedupInv flat contentMap ->
  let sorted := sort byScoreDescending (Map_values contentMap) in
  Permutation (Map_values contentMap) sorted /\
  Sorted ScoreDescending sorted /\
  NoDup (map keyOf sorted) /\
  (forall h, In h sorted -> In h flat /\ contentIdentifier h = Ok (keyOf h)).
Proof.
  intros Hinv sorted.
  assert (Hperm : Permutation (Map_values contentMap) sorted) by apply sort_perm.
  split; [exact Hperm|]. split; [apply sort_sorted|]. split.
  - apply (Permutation_NoDup (Permutation_map keyOf Hperm)).
    rewrite (DedupInv_keys _ _ Hinv). apply Hinv.
  - intros h HIn. apply (Permutation_in _ (Permutation_sym Hperm)) in HIn.
    destruct (DedupInv_values _ _ _ Hinv HIn) as [Hflat [key Hk]].
    split; [exact Hflat|]. unfold keyOf. now rewrite Hk.
Qed.

Lemma hasText_keyOf (flat : list Hit) :
  forallb hasText flat = true ->
  forall h, In h flat -> contentIdentifier h = Ok (keyOf h).
Proof.
  intros Hwf h HIn. rewrite forallb_forall in Hwf.
  destruct (proj1 (hasText_contentIdentifier h) (Hwf h HIn)) as [key Hk].
  unfold keyOf. now rewrite Hk.
Qed.

Lemma DedupInv_size (flat : list Hit) (contentMap : Map Hit) :
  forallb hasText flat = true ->
  DedupInv flat contentMap ->
  length contentMap
  = length (nodup (list_eq_dec N.eq_dec) (map keyOf flat)).
Proof.
  intros Hwf (ND & Hkeys & _).
  rewrite <- (length_map fst contentMap).
  apply Permutation_length, NoDup_Permutation; [exact ND | apply NoDup_nodup|].
  intros key. rewrite nodup_In, Hkeys, in_map_iff. split.
  - intros (h & HIn & Hk). exists h. split; [|exact HIn].
    unfold keyOf. now rewrite Hk.
  - intros (h & <- & HIn). exists h. split; [exact HIn|].
    now apply (hasText_keyOf flat).
Qed.

(** X1. The merge drops a hit only as a duplicate or beyond the count: its
    result has [min k d] entries, [d] being the number of distinct identity
    keys among the hits. *)
Theorem mergeResults_length (flat : list Hit) (k : nat) :
  forallb hasText flat = true ->
  exists merged,
    mergeResults flat (Z.of_nat k) = Ok merged /\
    length merged
    = Nat.min k (length (nodup (list_eq_dec N.eq_dec) (map keyOf flat))).
Proof.
  intros Hwf.
  destruct (mergeResults_total flat (Z.of_nat k) Hwf) as (cm & Hcm & Hmerge).
  eexists. split; [exact Hmerge|].
  pose proof (dedup_inv _ _ Hcm) as Hinv.
  rewrite slice_0_firstn, Nat2Z.id by lia.
  rewrite length_firstn, <- (DedupInv_size flat cm Hwf Hinv).
  rewrite <- (Permutation_length (sort_perm (Map_values cm))).
  unfold Map_values. now rewrite length_map.
Qed.

Lemma mergeResults_length_witness :
  forallb hasText sampleHits = true /\
  exists merged,
    mergeResults sampleHits (Z.of_nat 2) = Ok merged /\
    length merged
    = Nat.min 2 (length (nodup (list_eq_dec N.eq_dec) (map keyOf sampleHits))).
Proof.
  split; [reflexivity|]. apply (mergeResults_length sampleHits 2). reflexivity.
Defined.

Lemma ScoreDescending_trans (a b c : Hit) :
  ScoreDescending a b -> ScoreDescending b c -> ScoreDescending a c.
Proof. unfold ScoreDescending. intros; lra. Qed.

Lemma StronglySorted_firstn_skipn (n : nat) (l : list Hit) :
  StronglySorted ScoreDescending l ->
  forall a b, In a (firstn n l) -> In b (skipn n l) -> ScoreDescending a b.
Proof.
  revert l. induction n as [|n IH]; intros l Hs a b Ha Hb; simpl in *; [tauto|].
  destruct l as [|x l]; simpl in *; [tauto|].
  apply StronglySorted_inv in Hs as [Hs Hall].
  destruct Ha as [<-|Ha].
  - rewrite Forall_forall in Hall. apply Hall.
    rewrite <- (firstn_skipn n l). apply in_or_app. now right.
  - now apply (IH l).
Qed.

(** X2. The merge keeps the best: for every hit given to it, either the
    result holds a hit of the same identity key whose score is at least as
    high, or the result is full ([k] entries) and each of its entries has a
    score at least as high. *)
Theorem mergeResults_keeps_best (flat : list Hit) (k : nat) :
  forallb hasText flat = true ->
  exists merged,
    mergeResults flat (Z.of_nat k) = Ok merged /\
    forall h, In h flat ->
      (exists b, In b merged /\
                 contentIdentifier b = contentIdentifier h /\
                 (score h <= score b)%Q) \/
      (length merged = k /\
       forall a, In a merged -> (score h <= score a)%Q).
Proof.
  intros Hwf.
  destruct (mergeResults_total flat (Z.of_nat k) Hwf) as (cm & Hcm & Hmerge).
  eexists. split; [exact Hmerge|].
  pose proof (dedup_inv _ _ Hcm) as Hinv.
  rewrite slice_0_firstn, Nat2Z.id by lia.
  destruct (sorted_values_facts flat cm Hinv) as (Hperm & Hsorted & _ & _).
  set (sorted := sort byScoreDescending (Map_values cm)) in *.
  intros h HIn.
  pose proof (hasText_keyOf flat Hwf h HIn) as Hk.
  destruct Hinv as (ND & Hkeys & Hbest).
  assert (HInKey : In (keyOf h) (map fst cm)) by (apply Hkeys; eauto).
  destruct (Map_get cm (keyOf h)) as [b|] eqn:Hget;
    [|now apply Map_get_None in Hget].
  destruct (Hbest _ _ Hget) as (before & after & Hflat & Hkb & Hlt & Hle).
  assert (Hscore : (score h <= score b)%Q).
  { rewrite Hflat in HIn. apply in_app_or in HIn as [HIn|[<-|HIn]].
    - specialize (Hlt _ HIn Hk). lra.
    - lra.
    - exact (Hle _ HIn Hk). }
  assert (Hb : In b sorted).
  { apply (Permutation_in _ Hperm). unfold Map_values.
    apply in_map_iff. exists (keyOf h, b). split; [reflexivity|].
    now apply Map_get_In. }
  rewrite <- (firstn_skipn k sorted) in Hb. apply in_app_or in Hb as [Hb|Hb].
  - left. exists b. split; [exact Hb|]. split; [congruence | exact Hscore].
  - right. split.
    + rewrite length_firstn. apply Nat.min_l.
      destruct (Nat.le_gt_cases k (length sorted)) as [Hle'|Hgt]; [exact Hle'|].
      rewrite skipn_all2 in Hb by lia. destruct Hb.
    + intros a Ha.
      assert (Hab : ScoreDescending a b).
      { apply (StronglySorted_firstn_skipn k sorted); auto.
        apply Sorted_StronglySorted; [|exact Hsorted].
        intros x y z. apply ScoreDescending_trans. }
      unfold ScoreDescending in Hab. lra.
Qed.

Lemma mergeResults_keeps_best_witness :
  forallb hasText sampleHits = true /\
  exists merged,
    mergeResults sampleHits (Z.of_nat 2) = Ok merged /\
    forall h, In h sampleHits ->
      (exists b, In b merged /\
                 contentIdentifier b = contentIdentifier h /\
                 (score h <= score b)%Q) \/
      (length merged = 2 /\
       forall a, In a merged -> (score h <= score a)%Q).
Proof.
  split; [reflexivity|]. apply (mergeResults_keeps_best sampleHits 2). reflexivity.
Defined.

(** ** Merging a merged list *)

Lemma Map_set_absent (V : Type) (m : Map V) (k : JSString) (v : V) :
  ~ In k (map fst m) -> Map_set m k v = m ++ [(k, v)].
Proof.
  induction m as [|[k0 v0] m IH]; simpl; intros Hnot; [reflexivity|].
  destruct (String_eqb k0 k) eqn:E.
  - apply String_eqb_eq in E. tauto.
  - rewrite IH; tauto.
Qed.

Lemma forEachM_dedup_distinct (l : list Hit) (contentMap : Map Hit) :
  (forall h, In h l -> contentIdentifier h = Ok (keyOf h)) ->
  NoDup (map fst contentMap ++ map keyOf l) ->
  forEachM dedupStep l contentMap
  = Ok (contentMap ++ map (fun h => (keyOf h, h)) l).
Proof.
  revert contentMap. induction l as [|x l IH]; simpl; intros cm Hk ND.
  - now rewrite app_nil_r.
  - assert (Hnot : ~ In (keyOf x) (map fst cm)).
    { intros HIn. apply NoDup_remove_2 in ND. apply ND.
      apply in_or_app. now left. }
    unfold dedupStep at 1. rewrite (Hk x (or_introl eq_refl)); simpl.
    unfold Map_has. rewrite (proj2 (Map_get_None _ cm (keyOf x)) Hnot); simpl.
    rewrite (Map_set_absent _ cm (keyOf x) x Hnot).
    rewrite IH.
    + now rewrite <- app_assoc.
    + intros h HIn. apply Hk. now right.
    + rewrite map_app, <- app_assoc. exact ND.
Qed.

Lemma sort_of_sorted (l : list Hit) :
  Sorted ScoreDescending l -> sort byScoreDescending l = l.
Proof.
  induction 1 as [|x l Hs IH Hhd]; simpl; [reflexivity|].
  fold (sort byScoreDescending l). rewrite IH.
  destruct Hhd as [|y l Hxy]; simpl; [reflexivity|].
  assert (Hc : (byScoreDescending x y <= 0)%Q)
    by (unfold byScoreDescending, ScoreDescending in *; lra).
  apply Qle_bool_iff in Hc. now rewrite Hc.
Qed.

(** X3. Merging is idempotent: a list returned by the merge step, merged
    again with the same count, comes back unchanged (same hits, same
    order). *)
Theorem mergeResults_idempotent (flat merged : list Hit) (k : nat) :
  mergeResults flat (Z.of_nat k) = Ok merged ->
  mergeResults merged (Z.of_nat k) = Ok merged.
Proof.
  intros Hmerge.
  destruct (mergeResults_inv _ _ _ Hmerge) as (cm & Hinv & ->).
  destruct (sorted_values_facts flat cm Hinv) as (_ & Hsorted & HND & Hall).
  rewrite slice_0_firstn, Nat2Z.id by lia.
  set (sorted := sort byScoreDescending (Map_values cm)) in *.
  set (merged := firstn k sorted).
  assert (Hdedup : dedup merged = Ok (map (fun h => (keyOf h, h)) merged)).
  { unfold dedup. rewrite (forEachM_dedup_distinct merged []); [reflexivity| |].
    - intros h HIn. apply In_firstn in HIn. now apply Hall.
    - simpl. unfold merged. rewrite <- firstn_map. now apply NoDup_firstn. }
  unfold mergeResults. rewrite Hdedup. simpl. f_equal.
  unfold Map_values. rewrite map_map. simpl. rewrite map_id.
  rewrite sort_of_sorted by (apply Sorted_firstn; exact Hsorted).
  rewrite slice_0_firstn, Nat2Z.id by lia.
  unfold merged. rewrite firstn_firstn. now rewrite Nat.min_id.
Qed.

Lemma mergeResults_idempotent_witness :
  mergeResults sampleHits (Z.of_nat 2)
  = Ok [ sampleHit "Streams are collections of data" 0.95 "how do streams work";
         sampleHit "The event loop" 0.8 "streams" ] /\
  mergeResults
    [ sampleHit "Streams are collections of data" 0.95 "how do streams work";
      sampleHit "The event loop" 0.8 "streams" ] (Z.of_nat 2)
  = Ok [ sampleHit "Streams are collections of data" 0.95 "how do streams work";
         sampleHit "The event loop" 0.8 "streams" ].
Proof.
  split; [reflexivity|].
  apply (mergeResults_idempotent sampleHits _ 2). reflexivity.
Defined.

(** ** What a search returns *)

Lemma mapM_In (A B : Type) (f : A -> Result B) (l : list A) (r : list B) (y : B) :
  mapM f l = Ok r -> In y r -> exists x, In x l /\ f x = Ok y.
Proof.
  revert r. induction l as [|x l IH]; simpl; intros r.
  - intros [= <-] [].
  - destruct (f x) as [y0|] eqn:Hx; simpl; [|discriminate].
    destruct (mapM f l) as [ys|]; simpl; [|discriminate].
    intros [= <-] [<-|HIn]; [eauto|].
    destruct (IH ys eq_refl HIn) as (x' & Hx' & Hf). eauto.
Qed.

Lemma mapM_Throw (A B : Type) (f : A -> Result B) (l : list A) (x : A) (e : Error) :
  In x l -> f x = Throw e -> exists e', mapM f l = Throw e'.
Proof.
  induction l as [|x0 l IH]; simpl; [tauto|].
  intros [->|HIn] Hx.
  - rewrite Hx. simpl. eauto.
  - destruct (f x0); simpl; [|eauto].
    destruct (IH HIn Hx) as [e' ->]. simpl. eauto.
Qed.

Lemma mapM_total (A B : Type) (f : A -> Result B) (l : list A) :
  (forall x, In x l -> exists y, f x = Ok y) -> exists r, mapM f l = Ok r.
Proof.
  induction l as [|x l IH]; simpl; intros H; [eauto|].
  destruct (H x (or_introl eq_refl)) as [y ->].
  destruct IH as [r ->]; [intros; apply H; now right|]. simpl. eauto.
Qed.

Lemma mapM_map (A B C : Type) (f : A -> Result B) (g : B -> C) (h : A -> C)
      (l : list A) (r : list B) :
  (forall x y, f x = Ok y -> g y = h x) ->
  mapM f l = Ok r -> map g r = map h l.
Proof.
  intros Hfg. revert r. induction l as [|x l IH]; simpl; intros r.
  - intros [= <-]. reflexivity.
  - destruct (f x) as [y|] eqn:Hx; simpl; [|discriminate].
    destruct (mapM f l) as [ys|]; simpl; [|discriminate].
    intros [= <-]. simpl. now rewrite (Hfg x y Hx), (IH ys eq_refl).
Qed.

Lemma toHit_fields (q : JSON) (p : ScoredPoint) (h : Hit) :
  toHit q p = Ok h -> query h = q /\ score h = point_score p.
Proof.
  unfold toHit, payload_member. destruct (payload p); simpl; [|discriminate].
  intros [= <-]. split; reflexivity.
Qed.

Lemma singleQuerySearch_query
      (svc : Services) (q : JSON) (k : Z) (hits : list Hit) (h : Hit) :
  singleQuerySearch svc q k = Ok hits -> In h hits -> query h = q.
Proof.
  unfold singleQuerySearch, singleQuerySearch_try.
  destruct (getEmbeddings svc q) as [v|]; simpl;
    [|destruct (logged q); simpl; [intros [= <-] []|discriminate]].
  destruct (qdrant_search svc v k) as [points|]; simpl;
    [|destruct (logged q); simpl; [intros [= <-] []|discriminate]].
  destruct (mapM (toHit q) points) as [hits'|] eqn:E; simpl;
    [|destruct (logged q); simpl; [intros [= <-] []|discriminate]].
  intros [= <-] HIn. destruct (mapM_In _ _ _ _ _ _ E HIn) as (p & _ & Hp).
  now apply toHit_fields in Hp.
Qed.

(** X4. A search keeps the ranking of the index: when the embedding and the
    search succeed and every point has a payload, the search returns one hit
    per point, in the order of the points, each with the score of its point
    and tagged with the query. *)
Theorem singleQuerySearch_keeps_ranking
        (svc : Services) (q : JSON) (k : Z) (v : list Q) (points : list ScoredPoint) :
  getEmbeddings svc q = Ok v ->
  qdrant_search svc v k = Ok points ->
  (forall p, In p points -> payload p <> None) ->
  exists hits,
    singleQuerySearch svc q k = Ok hits /\
    map score hits = map point_score points /\
    map query hits = map (fun _ => q) points.
Proof.
  intros Hv Hs Hpay. unfold singleQuerySearch, singleQuerySearch_try.
  rewrite Hv; simpl. rewrite Hs; simpl.
  destruct (mapM (toHit q) points) as [hits|e] eqn:E.
  - exists hits. split; [reflexivity|].
    split; apply (mapM_map _ _ _ (toHit q) _ _ points hits); auto;
      intros p h Hp; now apply toHit_fields in Hp.
  - exfalso.
    destruct (mapM_total _ _ (toHit q) points) as [hits Hhits]; [|congruence].
    intros p HIn. unfold toHit, payload_member.
    destruct (payload p) eqn:Hp; [simpl; eauto | now apply Hpay in HIn].
Qed.

Lemma singleQuerySearch_keeps_ranking_witness :
  getEmbeddings twoVariationServices (JString (str "streams")) = Ok [0.1; 0.2]%Q /\
  qdrant_search twoVariationServices [0.1; 0.2]%Q 4
  = Ok [samplePoint "content" "The event loop" 0.8] /\
  (forall p, In p [samplePoint "content" "The event loop" 0.8] -> payload p <> None) /\
  exists hits,
    singleQuerySearch twoVariationServices (JString (str "streams")) 4 = Ok hits /\
    map score hits = map point_score [samplePoint "content" "The event loop" 0.8] /\
    map query hits
    = map (fun _ => JString (str "streams"))
        [samplePoint "content" "The event loop" 0.8].
Proof.
  assert (Hpay : forall p, In p [samplePoint "content" "The event loop" 0.8] ->
                           payload p <> None)
    by (intros p [<-|[]]; discriminate).
  split; [reflexivity|]. split; [reflexivity|]. split; [exact Hpay|].
  apply (singleQuerySearch_keeps_ranking twoVariationServices
           (JString (str "streams")) 4 [0.1; 0.2]%Q
           [samplePoint "content" "The event loop" 0.8]);
    [reflexivity | reflexivity | exact Hpay].
Defined.

(** X5. One point without payload spoils the whole search: the hits of the
    other points are dropped too.  The search returns the empty list when
    its query converts to a string (every string does), and throws, from its
    [catch] clause, when it does not. *)
Theorem singleQuerySearch_null_payload
        (svc : Services) (q : JSON) (k : Z) (v : list Q) (points : list ScoredPoint)
        (p : ScoredPoint) :
  getEmbeddings svc q = Ok v ->
  qdrant_search svc v k = Ok points ->
  In p points -> payload p = None ->
  singleQuerySearch svc q k
  = if stringifiable q then Ok [] else Throw TypeError.
Proof.
  intros Hv Hs HIn Hp. unfold singleQuerySearch, singleQuerySearch_try.
  rewrite Hv; simpl. rewrite Hs; simpl.
  assert (Hthrow : toHit q p = Throw TypeError)
    by (unfold toHit, payload_member; now rewrite Hp).
  destruct (mapM_Throw _ _ (toHit q) points p TypeError HIn Hthrow) as [e' ->].
  unfold logged. destruct (stringifiable q); reflexivity.
Qed.

Lemma singleQuerySearch_null_payload_witness :
  getEmbeddings nullPayloadServices (JString (str "streams")) = Ok [0.1; 0.2]%Q /\
  qdrant_search nullPayloadServices [0.1; 0.2]%Q 4
  = Ok [ samplePoint "content" "The event loop" 0.8;
         {| payload := None; point_score := 0.7 |} ] /\
  In {| payload := None; point_score := 0.7 |}
     [ samplePoint "content" "The event loop" 0.8;
       {| payload := None; point_score := 0.7 |} ] /\
  payload {| payload := None; point_score := 0.7 |} = None /\
  singleQuerySearch nullPayloadServices (JString (str "streams")) 4
  = if stringifiable (JString (str "streams")) then Ok [] else Throw TypeError.
Proof.
  split; [reflexivity|]. split; [reflexivity|].
  split; [right; left; reflexivity|]. split; [reflexivity|].
  apply (singleQuerySearch_null_payload nullPayloadServices
           (JString (str "streams")) 4 [0.1; 0.2]%Q
           [ samplePoint "content" "The event loop" 0.8;
             {| payload := None; point_score := 0.7 |} ]
           {| payload := None; point_score := 0.7 |});
    [reflexivity | reflexivity | right; left; reflexivity | reflexivity].
Defined.

(** The two cases, computed: a string query, and an object query with an own
    [toString] member. *)
Example singleQuerySearch_null_payload_cases :
  singleQuerySearch nullPayloadServices (JString (str "streams")) 4 = Ok [] /\
  singleQuerySearch nullPayloadServices
    (JObject [(str "toString", JNumber (str "1"))]) 4 = Throw TypeError.
Proof. split; reflexivity. Qed.

(** ** What the retrieval returns, on both of its paths *)

Lemma generateQueryVariations_head (svc : Services) (originalQuery : JSString) :
  In (JString originalQuery) (generateQueryVariations svc originalQuery).
Proof.
  unfold generateQueryVariations.
  destruct (generateContent svc _) as [responseText|]; [|now left].
  destruct (parseVariations originalQuery responseText) as [variations|] eqn:E.
  - apply parseVariations_first in E as [rest ->]. now left.
  - now left.
Qed.

Lemma mergeResults_In (flat : list Hit) (k : Z) (merged : list Hit) (h : Hit) :
  mergeResults flat k = Ok merged -> In h merged -> In h flat.
Proof.
  intros Hmerge HIn.
  destruct (mergeResults_inv _ _ _ Hmerge) as (cm & Hinv & ->).
  apply In_slice in HIn.
  now apply (sorted_values_facts flat cm Hinv) in HIn.
Qed.

Lemma fanOut_In (svc : Services) (qs : list JSON) (k : Z)
      (allResults : list (list Hit)) (h : Hit) :
  fanOut svc qs k = Ok allResults ->
  In h (concat allResults) ->
  exists v hits, In v qs /\ singleQuerySearch svc v k = Ok hits /\ In h hits.
Proof.
  intros Hfan HIn. apply in_concat in HIn as (hits & Hhits & HIn).
  destruct (mapM_In _ _ _ _ _ _ Hfan Hhits) as (v & Hv & Hsearch). eauto.
Qed.

(** X6. The retrieval returns, and every hit it returns is tagged with one of
    the query variations of that request, on the merged path and on the
    fallback path alike. *)
Theorem parallelQuerySearch_tags
        (svc : Services) (originalQuery : JSString) (k : Z) :
  exists hits,
    parallelQuerySearch svc originalQuery k = Ok hits /\
    forall h, In h hits ->
              In (query h) (generateQueryVariations svc originalQuery).
Proof.
  destruct (parallelQuerySearch_returns svc originalQuery k) as [hits Hhits].
  exists hits. split; [exact Hhits|]. intros h HIn.
  unfold parallelQuerySearch in Hhits.
  destruct (parallelQuerySearch_try svc originalQuery k) as [merged|] eqn:Htry.
  - injection Hhits as <-.
    unfold parallelQuerySearch_try, fanOutResults in Htry. cbv zeta in Htry.
    destruct (logVariations _); simpl in Htry; [|discriminate].
    destruct (fanOut svc _ k) as [allResults|] eqn:Hfan; simpl in Htry;
      [|discriminate].
    apply (mergeResults_In _ _ _ _ Htry) in HIn.
    destruct (fanOut_In _ _ _ _ _ Hfan HIn) as (v & hits' & Hv & Hsearch & HIn').
    now rewrite (singleQuerySearch_query _ _ _ _ _ Hsearch HIn').
  - rewrite (singleQuerySearch_query _ _ _ _ _ Hhits HIn).
    apply generateQueryVariations_head.
Qed.

(** A request whose hits carry the three variations as tags. *)
Example parallelQuerySearch_tags_sample :
  parallelQuerySearch requestServices (str "streams") 4
  = Ok [ sampleHit "Streams are collections of data" 0.95 "how do streams work";
         sampleHit "The event loop" 0.8 "streams";
         sampleHit "Buffers hold raw bytes" 0.7 "how do streams work" ] /\
  generateQueryVariations requestServices (str "streams")
  = [ JString (str "streams"); JString (str "how do streams work");
      JString (str "stream examples") ].
Proof. split; reflexivity. Qed.

(** X7. The retrieval honours the count as soon as the search of the original
    query does: the merged path never returns more than [k] hits, and the
    fallback path returns what that one search returns. *)
Theorem parallelQuerySearch_within_limit
        (svc : Services) (originalQuery : JSString) (k : nat) (single : list Hit) :
  singleQuerySearch svc (JString originalQuery) (Z.of_nat k) = Ok single ->
  length single <= k ->
  exists hits,
    parallelQuerySearch svc originalQuery (Z.of_nat k) = Ok hits /\
    length hits <= k.
Proof.
  intros Hsingle Hlen. unfold parallelQuerySearch.
  destruct (parallelQuerySearch_try svc originalQuery (Z.of_nat k))
    as [merged|] eqn:Htry; [|eauto].
  exists merged. split; [reflexivity|].
  unfold parallelQuerySearch_try in Htry.
  destruct (fanOutResults svc originalQuery (Z.of_nat k)); simpl in Htry;
    [|discriminate].
  destruct (mergeResults_inv _ _ _ Htry) as (cm & _ & ->).
  rewrite slice_0_firstn, Nat2Z.id by lia. apply firstn_le_length.
Qed.

Lemma parallelQuerySearch_within_limit_witness :
  singleQuerySearch twoVariationServices (JString (str "streams")) (Z.of_nat 4)
  = Ok [sampleHit "The event loop" 0.8 "streams"] /\
  length [sampleHit "The event loop" 0.8 "streams"] <= 4 /\
  exists hits,
    parallelQuerySearch twoVariationServices (str "streams") (Z.of_nat 4) = Ok hits /\
    length hits <= 4.
Proof.
  assert (H : length [sampleHit "The event loop" 0.8 "streams"] <= 4)
    by (simpl; lia).
  split; [reflexivity|]. split; [exact H|].
  apply (parallelQuerySearch_within_limit twoVariationServices (str "streams") 4
           [sampleHit "The event loop" 0.8 "streams"] eq_refl H).
Defined.

(** ** Cleaning and reading the reply of the generative service *)

Lemma removeAll_no_backtick (a b : JSString) :
  noBacktick a ->
  removeAll [fence_json; fence] (a ++ b) = a ++ removeAll [fence_json; fence] b.
Proof.
  unfold removeAll. induction 1 as [|c a Hc Ha IH]; simpl; [reflexivity|].
  assert (E : N.eqb 96 c = false) by (apply N.eqb_neq; congruence).
  change (match c with 0%N => false | N.pos q => (96 =? q)%positive end)
    with (N.eqb 96 c).
  rewrite E. simpl. now rewrite IH.
Qed.

Lemma removeAll_no_backtick_all (a : JSString) :
  noBacktick a -> removeAll [fence_json; fence] a = a.
Proof.
  intros Ha. rewrite <- (app_nil_r a) at 1.
  now rewrite removeAll_no_backtick, app_nil_r.
Qed.

Lemma trimStart_app (s t : JSString) :
  trimStart s <> [] -> trimStart (s ++ t) = trimStart s ++ t.
Proof.
  induction s as [|c s IH]; simpl; [congruence|].
  destruct (isWhiteSpace c); [exact IH | reflexivity].
Qed.

Lemma trimStart_blank (s t : JSString) :
  trimStart s = [] -> trimStart (s ++ t) = trimStart t.
Proof.
  induction s as [|c s IH]; simpl; [reflexivity|].
  destruct (isWhiteSpace c); [exact IH | discriminate].
Qed.

Lemma trim_between_newlines (body : JSString) :
  trim (nl ++ body ++ nl) = trim body.
Proof.
  unfold trim. change (trimStart (nl ++ body ++ nl)) with (trimStart (body ++ nl)).
  destruct (trimStart body) as [|c t] eqn:E.
  - rewrite (trimStart_blank body nl E). reflexivity.
  - rewrite (trimStart_app body nl) by congruence. rewrite E.
    rewrite rev_app_distr. reflexivity.
Qed.

Lemma jsonTextOf_clean (body : JSString) :
  noBacktick body ->
  jsonTextOf (fence_json ++ nl ++ body ++ nl ++ fence) = trim body /\
  jsonTextOf (fence ++ nl ++ body ++ nl ++ fence) = trim body /\
  jsonTextOf body = trim body.
Proof.
  intros Hb. unfold jsonTextOf.
  assert (Hmid : removeAll [fence_json; fence] (nl ++ body ++ nl ++ fence)
                 = nl ++ body ++ nl).
  { replace (nl ++ body ++ nl ++ fence) with ((nl ++ body ++ nl) ++ fence)
      by now rewrite <- !app_assoc.
    rewrite removeAll_no_backtick.
    - change (removeAll [fence_json; fence] fence) with (@nil N).
      now rewrite app_nil_r.
    - apply Forall_app. split; [repeat constructor; discriminate|].
      apply Forall_app. split; [exact Hb | repeat constructor; discriminate]. }
  split; [|split].
  - change (removeAll [fence_json; fence] (fence_json ++ nl ++ body ++ nl ++ fence))
      with (removeAll [fence_json; fence] (nl ++ body ++ nl ++ fence)).
    rewrite Hmid. apply trim_between_newlines.
  - change (removeAll [fence_json; fence] (fence ++ nl ++ body ++ nl ++ fence))
      with (10%N :: removeAll [fence_json; fence] (body ++ nl ++ fence)).
    change (removeAll [fence_json; fence] (nl ++ body ++ nl ++ fence))
      with (10%N :: removeAll [fence_json; fence] (body ++ nl ++ fence)) in Hmid.
    rewrite Hmid. apply trim_between_newlines.
  - now rewrite removeAll_no_backtick_all.
Qed.

(** X8. Code fences around the reply are removed before it is read: for a
    text without backquote, the text between a json fence or a bare fence and
    a closing fence, each on its own line, is cleaned to the same string as
    the text alone, namely the text trimmed. *)
Theorem jsonTextOf_fenced (body : JSString) :
  noBacktick body ->
  jsonTextOf (fence_json ++ nl ++ body ++ nl ++ fence) = trim body /\
  jsonTextOf (fence ++ nl ++ body ++ nl ++ fence) = trim body /\
  jsonTextOf body = trim body.
Proof. exact (jsonTextOf_clean body). Qed.

Lemma jsonTextOf_fenced_witness :
  noBacktick arrayOfTwo /\
  jsonTextOf (fence_json ++ nl ++ arrayOfTwo ++ nl ++ fence) = trim arrayOfTwo /\
  jsonTextOf (fence ++ nl ++ arrayOfTwo ++ nl ++ fence) = trim arrayOfTwo /\
  jsonTextOf arrayOfTwo = trim arrayOfTwo.
Proof.
  assert (H : noBacktick arrayOfTwo) by (repeat constructor; discriminate).
  split; [exact H|]. apply (jsonTextOf_fenced arrayOfTwo H).
Defined.

(** X9. Fences do not change the outcome of the expansion: a service that
    wraps its reply (a text without backquote) in a json fence and a service
    that sends the same reply bare lead to the same query variations. *)
Theorem generateQueryVariations_fence_insensitive
        (fenced bare : Services) (originalQuery body : JSString) :
  noBacktick body ->
  generateContent fenced (prompt_for originalQuery)
  = Ok (fence_json ++ nl ++ body ++ nl ++ fence) ->
  generateContent bare (prompt_for originalQuery) = Ok body ->
  generateQueryVariations fenced originalQuery
  = generateQueryVariations bare originalQuery.
Proof.
  intros Hb Hf Hbare. unfold generateQueryVariations, parseVariations.
  rewrite Hf, Hbare. cbv zeta.
  destruct (jsonTextOf_clean body Hb) as (-> & _ & ->). reflexivity.
Qed.

Lemma generateQueryVariations_fence_insensitive_witness :
  noBacktick arrayOfTwo /\
  generateContent twoVariationServices (prompt_for (str "streams"))
  = Ok (fence_json ++ nl ++ arrayOfTwo ++ nl ++ fence) /\
  generateContent
    {| generateContent := fun _ => Ok arrayOfTwo;
       embedContent := embedContent twoVariationServices;
       qdrant_search := qdrant_search twoVariationServices |}
    (prompt_for (str "streams")) = Ok arrayOfTwo /\
  generateQueryVariations twoVariationServices (str "streams")
  = generateQueryVariations
      {| generateContent := fun _ => Ok arrayOfTwo;
         embedContent := embedContent twoVariationServices;
         qdrant_search := qdrant_search twoVariationServices |}
      (str "streams").
Proof.
  assert (H : noBacktick arrayOfTwo) by (repeat constructor; discriminate).
  split; [exact H|]. split; [reflexivity|]. split; [reflexivity|].
  apply (generateQueryVariations_fence_insensitive twoVariationServices _
           (str "streams") arrayOfTwo H); reflexivity.
Defined.

Lemma codePoints_no_surrogate (s : JSString) :
  Forall (fun c => isHighSurrogate c = false) s ->
  codePoints_from None s = map (fun c => [c]) s.
Proof.
  induction 1 as [|c s Hc Hs IH]; simpl; [reflexivity|].
  now rewrite Hc, IH.
Qed.

(** X10. A reply that is a JSON string rather than an array is spread into its
    characters: the result is the original query followed by one variation
    per code unit of the string (a string without surrogate pairs), so the
    fan-out runs one search per character. *)
Theorem generateQueryVariations_string_reply
        (svc : Services) (originalQuery responseText s : JSString) :
  generateContent svc (prompt_for originalQuery) = Ok responseText ->
  JSON_parse (jsonTextOf responseText) = Ok (JString s) ->
  Forall (fun c => isHighSurrogate c = false) s ->
  generateQueryVariations svc originalQuery
  = JString originalQuery :: map (fun c => JString [c]) s /\
  length (generateQueryVariations svc originalQuery) = S (length s).
Proof.
  intros Hcall Hparse Hs.
  assert (E : generateQueryVariations svc originalQuery
              = JString originalQuery :: map (fun c => JString [c]) s).
  { unfold generateQueryVariations, parseVariations.
    rewrite Hcall. cbv zeta. rewrite Hparse. simpl.
    now rewrite (codePoints_no_surrogate s Hs), map_map. }
  rewrite E. simpl. now rewrite length_map.
Qed.

Lemma generateQueryVariations_string_reply_witness :
  generateContent stringReplyServices (prompt_for (str "streams"))
  = Ok (dq ++ str "io" ++ dq) /\
  JSON_parse (jsonTextOf (dq ++ str "io" ++ dq)) = Ok (JString (str "io")) /\
  Forall (fun c => isHighSurrogate c = false) (str "io") /\
  generateQueryVariations stringReplyServices (str "streams")
  = JString (str "streams") :: map (fun c => JString [c]) (str "io") /\
  length (generateQueryVariations stringReplyServices (str "streams"))
  = S (length (str "io")).
Proof.
  assert (H : Forall (fun c => isHighSurrogate c = false) (str "io"))
    by (repeat constructor).
  split; [reflexivity|]. split; [reflexivity|]. split; [exact H|].
  apply (generateQueryVariations_string_reply stringReplyServices (str "streams")
           (dq ++ str "io" ++ dq) (str "io")); [reflexivity | reflexivity | exact H].
Defined.

(** X11. A reply that is valid JSON but neither an array nor a string (an
    object wrapping the array, a number, a boolean, null) is treated like a
    reply that does not parse: the result is the original query and the three
    templated variations, and what the reply held is ignored. *)
Theorem generateQueryVariations_not_iterable_reply
        (svc : Services) (originalQuery responseText : JSString) (v : JSON) :
  generateContent svc (prompt_for originalQuery) = Ok responseText ->
  JSON_parse (jsonTextOf responseText) = Ok v ->
  notIterable v = true ->
  generateQueryVariations svc originalQuery
  = [ JString originalQuery;
      JString (str "What are the technical aspects of " ++ originalQuery ++ str "?");
      JString (str "Examples of " ++ originalQuery ++ str " in Node.js");
      JString (str "Explain the concept of " ++ originalQuery ++ str " in Node.js") ].
Proof.
  intros Hcall Hparse Hv.
  change (generateQueryVariations svc originalQuery = templatedVariations originalQuery).
  apply (generateQueryVariations_not_iterable svc originalQuery responseText v TypeError);
    auto.
  destruct v; try reflexivity; discriminate.
Qed.

Lemma generateQueryVariations_not_iterable_reply_witness :
  generateContent objectReplyServices (prompt_for (str "streams"))
  = Ok (str "{" ++ dq ++ str "variations" ++ dq ++ str ": " ++ arrayOfTwo ++ str "}") /\
  JSON_parse (jsonTextOf
    (str "{" ++ dq ++ str "variations" ++ dq ++ str ": " ++ arrayOfTwo ++ str "}"))
  = Ok (JObject [(str "variations",
                  JArray [JString (str "how do streams work");
                          JString (str "stream examples")])]) /\
  generateQueryVariations objectReplyServices (str "streams")
  = [ JString (str "streams");
      JString (str "What are the technical aspects of " ++ str "streams" ++ str "?");
      JString (str "Examples of " ++ str "streams" ++ str " in Node.js");
      JString (str "Explain the concept of " ++ str "streams" ++ str " in Node.js") ].
Proof.
  split; [reflexivity|]. split; [reflexivity|].
  apply (generateQueryVariations_not_iterable_reply objectReplyServices (str "streams")
           (str "{" ++ dq ++ str "variations" ++ dq ++ str ": " ++ arrayOfTwo ++ str "}")
           (JObject [(str "variations",
                      JArray [JString (str "how do streams work");
                              JString (str "stream examples")])]));
    reflexivity.
Defined.

(** * Further properties of the indexing *)

Lemma firstn_plus (A : Type) (a b : nat) (l : list A) :
  firstn a l ++ firstn b (skipn a l) = firstn (a + b) l.
Proof.
  revert l. induction a as [|a IH]; intros l; simpl; [reflexivity|].
  destruct l as [|x l]; simpl; [now rewrite firstn_nil | now rewrite IH].
Qed.

Lemma existsb_String_eqb (name : JSString) (l : list JSString) :
  existsb (fun c => String_eqb c name) l = true <-> In name l.
Proof.
  rewrite existsb_exists. split.
  - intros (c & HIn & E). apply String_eqb_eq in E. now subst.
  - intros HIn. exists name. split; [exact HIn | apply String_eqb_refl].
Qed.

Section IndexingOrder.

Variable svc : Services.
Variable store : VectorStore.
Variable name : JSString.

Lemma embedCalls_documents (batch : list Document) :
  embedCalls (map (fun doc => CallEmbed (doc_pageContent doc)) batch)
  = map doc_pageContent batch.
Proof.
  induction batch as [|doc batch IH]; simpl; [reflexivity | now rewrite IH].
Qed.

Lemma upsertCalls_documents (batch : list Document) :
  upsertCalls (map (fun doc => CallEmbed (doc_pageContent doc)) batch) = [].
Proof. induction batch as [|doc batch IH]; simpl; auto. Qed.

Lemma processBatch_log (batch : list Document) (w : World) :
  exists r w' log,
    processBatch svc store name batch w = (r, w') /\
    calls w' = calls w ++ log /\
    embedCalls log = map doc_pageContent batch /\
    ((exists e, r = Throw e) /\ upsertCalls log = [] \/
     map content (concat (upsertCalls log)) = map doc_pageContent batch).
Proof.
  unfold processBatch, bindM, call.
  destruct (embedBatch svc store batch w) as [[points|e] w1] eqn:E.
  - apply embedBatch_ok in E as [Hcalls Hcontent].
    eexists _, _, (batchCalls name points). split; [reflexivity|]. simpl.
    split; [unfold batchCalls; now rewrite Hcalls, <- app_assoc|].
    rewrite embedCalls_batchCalls, upsertCalls_batchCalls. simpl.
    rewrite app_nil_r. auto.
  - exists (Throw e), w1,
      (map (fun doc => CallEmbed (doc_pageContent doc)) batch).
    unfold embedBatch in E.
    destruct (mapM _ batch); inversion E; subst; simpl.
    split; [reflexivity|]. split; [reflexivity|].
    rewrite embedCalls_documents, upsertCalls_documents. eauto.
Qed.

Lemma batchLoop_log (documents : list Document) (fuel : nat) :
  forall (i : Z) (w : World),
    (0 <= i)%Z ->
    (i < Z.of_nat (length documents) + 20)%Z ->
    (Z.of_nat (length documents) - i + 20 <= 20 * Z.of_nat fuel)%Z ->
    exists r w' log a b,
      batchLoop svc store name fuel documents i w = Some (r, w') /\
      calls w' = calls w ++ log /\
      b <= a /\
      embedCalls log
      = firstn a (map doc_pageContent (skipn (Z.to_nat i) documents)) /\
      map content (concat (upsertCalls log))
      = firstn b (map doc_pageContent (skipn (Z.to_nat i) documents)).
Proof.
  induction fuel as [|fuel IH]; intros i w Hi0 Hi1 Hfuel; [lia|].
  simpl. destruct (i <? Z.of_nat (length documents))%Z eqn:Hlt.
  - apply Z.ltb_lt in Hlt. rewrite slice_batch by lia.
    set (rest := skipn (Z.to_nat i) documents).
    destruct (processBatch_log (firstn 20 rest) w)
      as (r1 & w1 & log1 & -> & Hcalls & Hembed & Hupsert).
    rewrite <- firstn_map in Hembed, Hupsert.
    destruct r1 as [u|e].
    + destruct Hupsert as [[[e He] _]|Hupsert]; [discriminate|].
      destruct (IH (i + batchSize)%Z w1)
        as (r & w' & log2 & a & b & Hloop & Hcalls2 & Hab & Hembed2 & Hupsert2);
        [unfold batchSize; lia ..|].
      unfold batchSize in *.
      replace (Z.to_nat (i + 20)) with (20 + Z.to_nat i) in Hembed2, Hupsert2 by lia.
      rewrite <- skipn_skipn, <- skipn_map in Hembed2, Hupsert2.
      fold rest in Hembed2, Hupsert2.
      exists r, w', (log1 ++ log2), (20 + a), (20 + b).
      split; [exact Hloop|].
      split; [now rewrite Hcalls2, Hcalls, <- app_assoc|].
      split; [lia|].
      rewrite embedCalls_app, upsertCalls_app, concat_app, map_app.
      rewrite Hembed, Hembed2, Hupsert, Hupsert2, !firstn_plus. auto.
    + exists (Throw e), w1, log1, 20.
      destruct Hupsert as [[_ Hnone]|Hupsert].
      * exists 0. rewrite Hnone. simpl. repeat split; auto; lia.
      * exists 20. repeat split; auto.
  - exists (Ok tt), w, [], 0, 0. simpl. rewrite app_nil_r. repeat split; auto.
Qed.

Lemma createCollectionIfNotExists_log (w : World) :
  exists r w' log,
    createCollectionIfNotExists store name w = (r, w') /\
    calls w' = calls w ++ log /\
    embedCalls log = [] /\ upsertCalls log = [].
Proof.
  unfold createCollectionIfNotExists, bindM, call, ret.
  destruct (getCollections store) as [collections|e]; simpl.
  - destruct (negb _); simpl.
    + eexists _, _, [CallGetCollections; CallCreateCollection name vectorSize].
      split; [reflexivity|]. simpl. rewrite <- app_assoc. auto.
    + eexists _, _, [CallGetCollections]. split; [reflexivity|]. simpl. auto.
  - eexists _, _, [CallGetCollections]. split; [reflexivity|]. simpl. auto.
Qed.

Lemma addDocumentsToVectorStore_log (documents : list Document) (w : World) :
  exists r w' log a b,
    addDocumentsToVectorStore svc store name documents w = Some (r, w') /\
    calls w' = calls w ++ log /\
    b <= a /\
    embedCalls log = firstn a (map doc_pageContent documents) /\
    map content (concat (upsertCalls log))
    = firstn b (map doc_pageContent documents).
Proof.
  unfold addDocumentsToVectorStore.
  destruct (createCollectionIfNotExists_log w)
    as (r0 & w0 & log0 & -> & Hcalls0 & Hembed0 & Hupsert0).
  destruct r0 as [u|e].
  - destruct (batchLoop_log documents (S (length documents)) 0 w0)
      as (r & w' & log & a & b & Hloop & Hcalls & Hab & Hembed & Hupsert);
      [lia ..|].
    simpl in Hembed, Hupsert.
    exists r, w', (log0 ++ log), a, b. split; [exact Hloop|].
    split; [now rewrite Hcalls, Hcalls0, <- app_assoc|]. split; [exact Hab|].
    rewrite embedCalls_app, upsertCalls_app, Hembed0, Hupsert0. simpl. auto.
  - exists (Throw e), w0, log0, 0, 0. rewrite Hembed0, Hupsert0. simpl. auto.
Qed.

(** X12. Whatever the services do, the indexing ends, and what it has done by
    then respects the input: the texts embedded are a prefix of the texts of
    the documents, in order, and the texts upserted are a prefix of those
    embedded.  No document is embedded or upserted twice or out of turn, on a
    failed run either. *)
Theorem addDocumentsToVectorStore_in_order (documents : list Document) (w : World) :
  exists r w' log a b,
    addDocumentsToVectorStore svc store name documents w = Some (r, w') /\
    calls w' = calls w ++ log /\
    b <= a /\
    embedCalls log = firstn a (map doc_pageContent documents) /\
    map content (concat (upsertCalls log))
    = firstn b (map doc_pageContent documents).
Proof. exact (addDocumentsToVectorStore_log documents w). Qed.

(** X13. The collection is created exactly when its name is not among the
    collections the index lists, with the dimension 768; when the name is
    listed, nothing is created and the check succeeds. *)
Theorem createCollectionIfNotExists_creates_when_absent
        (w : World) (collections : list JSString) :
  getCollections store = Ok collections ->
  (In name collections ->
   createCollectionIfNotExists store name w
   = (Ok tt, {| calls := calls w ++ [CallGetCollections]; uuids := uuids w |})) /\
  (~ In name collections ->
   createCollectionIfNotExists store name w
   = (createCollection store name 768,
      {| calls := (calls w ++ [CallGetCollections])
                  ++ [CallCreateCollection name 768];
         uuids := uuids w |})).
Proof.
  intros Hget. unfold createCollectionIfNotExists, bindM, call, ret.
  rewrite Hget. simpl.
  destruct (existsb (fun c => String_eqb c name) collections) eqn:E; simpl.
  - apply existsb_String_eqb in E. split; [reflexivity | tauto].
  - split; [|reflexivity]. intros HIn. apply existsb_String_eqb in HIn. congruence.
Qed.

End IndexingOrder.

Lemma mapM_Throw_inv (A B : Type) (f : A -> Result B) (l : list A) (e : Error) :
  mapM f l = Throw e -> exists x, In x l /\ f x = Throw e.
Proof.
  induction l as [|x l IH]; simpl; [discriminate|].
  destruct (f x) as [y|e0] eqn:Hx; simpl.
  - destruct (mapM f l) as [ys|e1]; simpl; [discriminate|].
    intros [= <-]. destruct (IH eq_refl) as (x' & HIn & Hx'). eauto.
  - intros [= <-]. eauto.
Qed.

Section IndexingFailure.

Variable svc : Services.
Variable store : VectorStore.
Variable name : JSString.

Lemma processBatch_fail (batch : list Document) (w w' : World) (e : Error) :
  processBatch svc store name batch w = (Throw e, w') ->
  exists made, calls w' = calls w ++ made /\ failedBatch svc store name batch e made.
Proof.
  unfold processBatch, bindM, call.
  destruct (embedBatch svc store batch w) as [[points|e0] w1] eqn:E.
  - apply embedBatch_ok in E as [Hcalls Hcontent].
    intros [= Hup <-]. exists (batchCalls name points). simpl.
    split; [unfold batchCalls; now rewrite Hcalls, <- app_assoc|].
    right. exists points. auto.
  - intros [= <- <-]. unfold embedBatch in E.
    destruct (mapM _ batch) as [embeddings|e1] eqn:Hmap; inversion E; subst; simpl.
    eexists. split; [reflexivity|]. left. split; [reflexivity|].
    apply mapM_Throw_inv in Hmap as (doc & HIn & Hdoc). eauto.
Qed.

Lemma batchLoop_failure (documents : list Document) (fuel : nat) :
  forall (i : Z) (w w' : World) (e : Error),
    (0 <= i)%Z ->
    batchLoop svc store name fuel documents i w = Some (Throw e, w') ->
    exists done made,
      calls w' = calls w ++ flat_map (batchCalls name) done ++ made /\
      Forall (fun points => length points = 20) done /\
      map content (concat done)
      = firstn (20 * length done)
          (map doc_pageContent (skipn (Z.to_nat i) documents)) /\
      firstn 20 (skipn (20 * length done) (skipn (Z.to_nat i) documents)) <> [] /\
      failedBatch svc store name
        (firstn 20 (skipn (20 * length done) (skipn (Z.to_nat i) documents)))
        e made.
Proof.
  induction fuel as [|fuel IH]; intros i w w' e Hi; cbn [batchLoop];
    [discriminate|].
  destruct (i <? Z.of_nat (length documents))%Z eqn:Hlt; [|discriminate].
  apply Z.ltb_lt in Hlt. rewrite slice_batch by lia.
  set (rest := skipn (Z.to_nat i) documents).
  assert (Hrest : length rest = length documents - Z.to_nat i)
    by (unfold rest; apply length_skipn).
  destruct (processBatch svc store name (firstn 20 rest) w) as [[u|e1] w1] eqn:EP.
  - apply processBatch_ok in EP as (points & Hcalls & Hcontent).
    intros Hloop. apply IH in Hloop; [|unfold batchSize; lia].
    destruct Hloop as (done & made & Hcalls' & Hfull & Hdone & Hbatch & Hfail).
    unfold batchSize in *.
    replace (Z.to_nat (i + 20)) with (20 + Z.to_nat i) in * by lia.
    rewrite <- skipn_skipn in Hdone, Hbatch, Hfail. fold rest in Hdone, Hbatch, Hfail.
    rewrite skipn_skipn in Hbatch, Hfail.
    assert (Hlen : length points = 20).
    { rewrite <- (length_map content points), Hcontent, length_map, length_firstn.
      apply Nat.min_l.
      destruct (Nat.le_gt_cases 20 (length rest)) as [H|H]; [exact H|].
      exfalso. apply Hbatch. rewrite skipn_all2; [apply firstn_nil | lia]. }
    assert (Hmul : 20 * length (points :: done) = 20 * length done + 20)
      by (simpl length; lia).
    exists (points :: done), made. rewrite Hmul.
    split; [|split; [|split; [|split]]].
    + rewrite Hcalls', Hcalls. simpl. now rewrite <- !app_assoc.
    + now constructor.
    + simpl concat. rewrite map_app, Hcontent, Hdone, <- firstn_map.
      rewrite <- skipn_map, firstn_plus. f_equal. lia.
    + exact Hbatch.
    + exact Hfail.
  - intros [= <- <-]. apply processBatch_fail in EP as (made & Hcalls & Hfail).
    exists [], made.
    split; [exact Hcalls|]. split; [constructor|]. split; [reflexivity|].
    split; [|exact Hfail].
    change (firstn 20 rest <> []).
    intros Hnil. assert (Hl : length (firstn 20 rest) = 0) by now rewrite Hnil.
    rewrite length_firstn in Hl. lia.
Qed.


End IndexingFailure.

(** A run that fails in its second batch: the first twenty documents are
    upserted, the embedding call of the last document is made and throws,
    and nothing follows. *)
Example addDocumentsToVectorStore_second_batch_fails :
  exists w',
    addDocumentsToVectorStore flakyServices sampleStore (str "learning_langchain")
      (firstn 20 sampleDocuments ++ [streamsDocument]) emptyWorld
    = Some (Throw (RemoteError (str "timeout")), w') /\
    map (@length Point) (upsertCalls (calls w')) = [20] /\
    embedCalls (calls w')
    = map doc_pageContent (firstn 20 sampleDocuments ++ [streamsDocument]).
Proof. eexists. split; [vm_compute; reflexivity|]. split; reflexivity. Qed.

Lemma createCollectionIfNotExists_creates_when_absent_witness :
  getCollections sampleStore = Ok [str "learning_langchain"] /\
  (In (str "learning_langchain") [str "learning_langchain"] ->
   createCollectionIfNotExists sampleStore (str "learning_langchain") emptyWorld
   = (Ok tt, {| calls := calls emptyWorld ++ [CallGetCollections];
                uuids := uuids emptyWorld |})) /\
  (~ In (str "learning_langchain") [str "learning_langchain"] ->
   createCollectionIfNotExists sampleStore (str "learning_langchain") emptyWorld
   = (createCollection sampleStore (str "learning_langchain") 768,
      {| calls := (calls emptyWorld ++ [CallGetCollections])
                  ++ [CallCreateCollection (str "learning_langchain") 768];
         uuids := uuids emptyWorld |})).
Proof.
  split; [reflexivity|].
  apply (createCollectionIfNotExists_creates_when_absent sampleStore
           (str "learning_langchain") emptyWorld [str "learning_langchain"]).
  reflexivity.
Defined.

(** * Properties of the startup *)

Section StartupFacts.

Variable svc : Services.
Variable store : VectorStore.
Variable getCollectionInfo : JSString -> Result (option Z).
Variable name : JSString.
Variable splitDocs : list Document.

Lemma indexAtStartup_total (events : list StartupEvent) :
  exists r events',
    indexAtStartup svc store name splitDocs events = Some (r, events').
Proof.
  unfold indexAtStartup.
  destruct (addDocumentsToVectorStore_log svc store name splitDocs
              {| calls := []; uuids := 0 |}) as (r & w & _ & _ & _ & -> & _).
  eauto.
Qed.

Lemma indexAtStartup_fails (events : list StartupEvent) :
  (exists e events',
      indexAtStartup svc store name splitDocs events = Some (Throw e, events'))
  <-> indexingFails svc store name splitDocs.
Proof.
  unfold indexAtStartup, indexingFails.
  destruct (addDocumentsToVectorStore svc store name splitDocs _)
    as [[[u|e] w]|]; split.
  - intros (e & ev & [=]).
  - intros (e & w' & [=]).
  - eauto.
  - eauto.
  - intros (e & ev & [=]).
  - intros (e & w' & [=]).
Qed.

(** X14. A collection that is listed is left alone unless its point count is
    read and is 0: when the count is another number, is missing, or cannot be
    read, the startup makes the listing and the read, no creation, embedding
    or upsert, and starts the question loop. *)
Theorem main_leaves_indexed_collection (collections : list JSString) :
  getCollections store = Ok collections ->
  In name collections ->
  getCollectionInfo name <> Ok (Some 0%Z) ->
  main svc store getCollectionInfo name splitDocs
  = Some (AskingQuestions,
          [Outbound CallGetCollections; ReadCollectionInfo name]).
Proof.
  intros Hget HIn Hcount. unfold main. rewrite Hget. cbv zeta.
  rewrite (proj2 (existsb_String_eqb name collections) HIn). simpl.
  destruct (getCollectionInfo name) as [[[|n|n]|]|]; simpl; try reflexivity.
  congruence.
Qed.

(** X15. The startup always comes to an end, and it ends the process, with
    code 1, in two cases only: the listing of the collections fails, or the
    collection is not listed and its indexing fails.  A failure of the
    indexing of a listed, empty collection, or of the read of its
    information, does not end the process: the question loop starts. *)
Theorem main_exit_code :
  exists outcome events,
    main svc store getCollectionInfo name splitDocs = Some (outcome, events) /\
    (outcome = AskingQuestions \/ outcome = ProcessExit 1) /\
    (outcome = ProcessExit 1 <->
     (exists e, getCollections store = Throw e) \/
     (exists collections,
         getCollections store = Ok collections /\
         ~ In name collections /\
         indexingFails svc store name splitDocs)).
Proof.
  unfold main. destruct (getCollections store) as [collections|e] eqn:Hget.
  - cbv zeta.
    destruct (existsb (fun c => String_eqb c name) collections) eqn:E; simpl.
    + assert (HIn : In name collections) by now apply existsb_String_eqb.
      assert (Hno : forall events : list StartupEvent,
                 exists outcome events',
                   Some (AskingQuestions, events) = Some (outcome, events') /\
                   (outcome = AskingQuestions \/ outcome = ProcessExit 1) /\
                   (outcome = ProcessExit 1 <->
                    (exists e, Ok collections = Throw e) \/
                    (exists collections0,
                        Ok collections = Ok collections0 /\
                        ~ In name collections0 /\
                        indexingFails svc store name splitDocs))).
      { intros events. exists AskingQuestions, events.
        split; [reflexivity|]. split; [now left|]. split; [discriminate|].
        intros [[e [=]]|(cols & [= <-] & Hnot & _)]. tauto. }
      destruct (getCollectionInfo name) as [pointCount|e]; [|apply Hno].
      destruct (pointCountIsZero pointCount); [|apply Hno].
      destruct (indexAtStartup_total
                  [Outbound CallGetCollections; ReadCollectionInfo name])
        as (r & events' & ->).
      apply Hno.
    + assert (Hnot : ~ In name collections).
      { intros HIn. apply existsb_String_eqb in HIn. congruence. }
      pose proof (indexAtStartup_fails [Outbound CallGetCollections]) as Hfails.
      destruct (indexAtStartup_total [Outbound CallGetCollections])
        as (r & events' & Hidx).
      rewrite Hidx in *. destruct r as [u|e].
      * exists AskingQuestions, events'. split; [reflexivity|].
        split; [now left|]. split; [discriminate|].
        intros [[e [=]]|(cols & _ & _ & Hf)].
        apply Hfails in Hf as (e & ev & [=]).
      * exists (ProcessExit 1), events'. split; [reflexivity|].
        split; [now right|]. split; [|reflexivity].
        intros _. right. exists collections. split; [reflexivity|].
        split; [exact Hnot|]. apply Hfails. eauto.
  - exists (ProcessExit 1), [Outbound CallGetCollections].
    split; [reflexivity|]. split; [now right|]. split; [|reflexivity].
    intros _. left. eauto.
Qed.

End StartupFacts.

Lemma main_leaves_indexed_collection_witness :
  getCollections sampleStore = Ok [str "learning_langchain"] /\
  In (str "learning_langchain") [str "learning_langchain"] /\
  (fun _ : JSString => Ok (Some 120%Z)) (str "learning_langchain")
  <> Ok (Some 0%Z) /\
  main twoVariationServices sampleStore (fun _ => Ok (Some 120%Z))
       (str "learning_langchain") sampleDocuments
  = Some (AskingQuestions,
          [Outbound CallGetCollections;
           ReadCollectionInfo (str "learning_langchain")]).
Proof.
  assert (H : (fun _ : JSString => Ok (Some 120%Z)) (str "learning_langchain")
              <> Ok (Some 0%Z)) by discriminate.
  split; [reflexivity|]. split; [now left|]. split; [exact H|].
  apply (main_leaves_indexed_collection twoVariationServices sampleStore
           (fun _ => Ok (Some 120%Z)) (str "learning_langchain") sampleDocuments
           [str "learning_langchain"]); [reflexivity | now left | exact H].
Defined.

(** The two runs of the startup whose indexing fails: fatal for a collection
    that was missing, swallowed for a collection that was empty. *)
Example main_failed_indexing :
  (exists events,
      main flakyServices freshStore (fun _ => Ok (Some 0%Z))
           (str "learning_langchain") [streamsDocument]
      = Some (ProcessExit 1, events)) /\
  (exists events,
      main flakyServices sampleStore (fun _ => Ok (Some 0%Z))
           (str "learning_langchain") [streamsDocument]
      = Some (AskingQuestions, events)).
Proof. split; eexists; vm_compute; reflexivity. Qed.

(** * Properties of the model recommender *)

Section RouterFacts.

Variable ToString : option JSON -> Result JSString.
Variable generate : JSString -> Result JSString.

Lemma modelSection_null : modelSection ToString JNull = Throw TypeError.
Proof. reflexivity. Qed.

(** X16. The recommender asks the generative model at most once per query,
    and only when the model database is an array without null entry; in
    every other case (no database, a database that is not an array, a null
    entry) it returns its fixed error message without any call. *)
Theorem recommendAIModel_calls (query : JSString) (modelDatabase : option JSON) :
  (recommendAIModel ToString generate query modelDatabase = (recommendError, []))
  \/
  (exists prompt text models,
      recommendAIModel ToString generate query modelDatabase = (text, [prompt]) /\
      modelDatabase = Some (JArray models) /\
      ~ In JNull models /\
      (generate prompt = Ok text \/
       (exists e, generate prompt = Throw e) /\ text = recommendError)).
Proof.
  unfold recommendAIModel.
  destruct (createModelSelectorPrompt ToString query modelDatabase)
    as [prompt|e] eqn:Hprompt; [|now left].
  right. unfold createModelSelectorPrompt in Hprompt.
  destruct modelDatabase as [[| | | |models|]|]; try discriminate.
  destruct (mapM (modelSection ToString) models) as [sections|] eqn:Hmap;
    [|discriminate].
  assert (Hnull : ~ In JNull models).
  { intros HIn.
    destruct (mapM_Throw _ _ _ models JNull TypeError HIn modelSection_null)
      as [e' He']. congruence. }
  destruct (generate prompt) as [text|e] eqn:Hgen.
  - exists prompt, text, models. auto.
  - exists prompt, recommendError, models. repeat split; auto. right. eauto.
Qed.

(** X17. A models file that is valid JSON but has no [models] member does not
    stop the program at load time; the database is then undefined, and every
    later query gets the fixed error message, the generative model never
    being called. *)
Theorem loadAIModelData_without_models
        (fileData : JSString) (members : list (JSString * JSON)) :
  JSON_parse fileData = Ok (JObject members) ->
  Map_get members (str "models") = None ->
  loadAIModelData (Ok fileData) = ModelData None /\
  forall query,
    recommendAIModel ToString generate query None = (recommendError, []).
Proof.
  intros Hparse Hget. unfold loadAIModelData. simpl. rewrite Hparse. simpl.
  rewrite Hget. split; reflexivity.
Qed.

End RouterFacts.

(** X18. Loading the models ends the process, with code 1, exactly when the
    file cannot be read, is not JSON, or is the JSON value null.  For any
    other content it returns, unchecked, the [models] member of the parsed
    value: the member of that name for an object (undefined when the object
    has none), undefined for a value that is not an object. *)
Theorem loadAIModelData_exit (readFile : Result JSString) :
  (loadAIModelData readFile = LoadExit 1 <->
   (exists e, readFile = Throw e) \/
   (exists fileData,
       readFile = Ok fileData /\
       ((exists e, JSON_parse fileData = Throw e) \/
        JSON_parse fileData = Ok JNull))) /\
  (forall fileData v,
      readFile = Ok fileData ->
      JSON_parse fileData = Ok v ->
      v <> JNull ->
      loadAIModelData readFile
      = ModelData match v with
                  | JObject members => Map_get members (str "models")
                  | _ => None
                  end).
Proof.
  unfold loadAIModelData. destruct readFile as [fileData|e]; simpl.
  - split.
    + destruct (JSON_parse fileData) as [v|e] eqn:Hparse; simpl.
      * destruct v; simpl;
          try (split; [discriminate|];
               intros [[e [=]]|(fd & [= <-] & [[e He]|He])]; congruence).
        split; [|reflexivity]. intros _. right. exists fileData. auto.
      * split; [|reflexivity]. intros _. right. exists fileData. split; eauto.
    + intros fd v [= <-] Hparse Hv. rewrite Hparse. simpl.
      destruct v; simpl; congruence.
  - split.
    + split; [|reflexivity]. intros _. left. eauto.
    + intros fd v [=].
Qed.

(** A models file with the expected member: the loader returns that member,
    as it is. *)
Example loadAIModelData_sample :
  loadAIModelData
    (Ok (str "{" ++ dq ++ str "models" ++ dq ++ str ": [{" ++ dq ++ str "name" ++ dq
         ++ str ": " ++ dq ++ str "GPT-4o" ++ dq ++ str "}]}"))
  = ModelData (Some (JArray [JObject [(str "name", JString (str "GPT-4o"))]])).
Proof. reflexivity. Qed.

Lemma loadAIModelData_without_models_witness :
  JSON_parse misnamedModelsFile
  = Ok (JObject [(str "model", JArray [JObject [(str "name", JString (str "GPT-4o"))]])]) /\
  Map_get [(str "model", JArray [JObject [(str "name", JString (str "GPT-4o"))]])]
          (str "models") = None /\
  loadAIModelData (Ok misnamedModelsFile) = ModelData None /\
  forall query,
    recommendAIModel sampleToString (fun _ => Ok (str "Use GPT-4o.")) query None
    = (recommendError, []).
Proof.
  split; [reflexivity|]. split; [reflexivity|].
  apply (loadAIModelData_without_models sampleToString
           (fun _ => Ok (str "Use GPT-4o.")) misnamedModelsFile
           [(str "model", JArray [JObject [(str "name", JString (str "GPT-4o"))]])]);
    reflexivity.
Defined.

(** A database of one model: one prompt is sent and the reply is returned. *)
Example recommendAIModel_sample :
  exists prompt,
    recommendAIModel sampleToString (fun _ => Ok (str "Use GPT-4o."))
      (str "chatbot")
      (Some (JArray [JObject [(str "name", JString (str "GPT-4o"))]]))
    = (str "Use GPT-4o.", [prompt]).
Proof. eexists. vm_compute. reflexivity. Qed.

(** * The two scripts compared *)

Lemma mapM_tagged (q : JSON) (points : list ScoredPoint) :
  mapM (toHit q) points
  = match mapM toPlainHit points with
    | Ok hits => Ok (map (tagged q) hits)
    | Throw e => Throw e
    end.
Proof.
  induction points as [|p points IH]; simpl; [reflexivity|].
  rewrite IH. unfold toHit, payload_member.
  destruct p as [[members|] s]; simpl; [|reflexivity].
  destruct (mapM toPlainHit points); reflexivity.
Qed.

(** X19. The search of the parallel script is the search of the first script
    with its errors handled: where [similaritySearch] returns hits,
    [singleQuerySearch] returns the same hits, in the same order, each tagged
    with the query; where [similaritySearch] throws, [singleQuerySearch]
    returns the empty list when the query converts to a string (every string
    does) and throws, from its [catch] clause, when it does not. *)
Theorem singleQuerySearch_similaritySearch (svc : Services) (q : JSON) (k : Z) :
  singleQuerySearch svc q k
  = match similaritySearch svc q k with
    | Ok hits => Ok (map (tagged q) hits)
    | Throw _ => if stringifiable q then Ok [] else Throw TypeError
    end.
Proof.
  unfold singleQuerySearch, singleQuerySearch_try, similaritySearch, logged.
  destruct (getEmbeddings svc q) as [v|]; simpl;
    [|destruct (stringifiable q); reflexivity].
  destruct (qdrant_search svc v k) as [points|]; simpl;
    [|destruct (stringifiable q); reflexivity].
  rewrite mapM_tagged.
  destruct (mapM toPlainHit points); [|destruct (stringifiable q)]; reflexivity.
Qed.

(** For the query typed at the prompt, a string, the second case is the
    empty list. *)
Lemma singleQuerySearch_similaritySearch_string
      (svc : Services) (text : JSString) (k : Z) :
  singleQuerySearch svc (JString text) k
  = match similaritySearch svc (JString text) k with
    | Ok hits => Ok (map (tagged (JString text)) hits)
    | Throw _ => Ok []
    end.
Proof.
  unfold singleQuerySearch, singleQuerySearch_try, similaritySearch, logged.
  simpl stringifiable. cbv iota.
  destruct (getEmbeddings svc (JString text)) as [v|]; simpl; [|reflexivity].
  destruct (qdrant_search svc v k) as [points|]; simpl; [|reflexivity].
  rewrite mapM_tagged. destruct (mapM toPlainHit points); reflexivity.
Qed.

(** * More on the count and on the points *)

(** X21. Raising the count only appends: for [k <= k'], the merge with count
    [k] returns the first [k] entries of the merge with count [k']. *)
Theorem mergeResults_prefix (flat merged' : list Hit) (k k' : nat) :
  k <= k' ->
  mergeResults flat (Z.of_nat k') = Ok merged' ->
  mergeResults flat (Z.of_nat k) = Ok (firstn k merged').
Proof.
  intros Hk Hmerge. unfold mergeResults in *.
  destruct (dedup flat) as [cm|]; simpl in *; [|discriminate].
  injection Hmerge as <-.
  rewrite !slice_0_firstn, !Nat2Z.id by lia.
  rewrite firstn_firstn. now rewrite Nat.min_l.
Qed.

Lemma mergeResults_prefix_witness :
  2 <= 4 /\
  mergeResults sampleHits (Z.of_nat 4)
  = Ok [ sampleHit "Streams are collections of data" 0.95 "how do streams work";
         sampleHit "The event loop" 0.8 "streams";
         sampleHit "Buffers hold raw bytes" 0.7 "how do streams work" ] /\
  mergeResults sampleHits (Z.of_nat 2)
  = Ok (firstn 2
          [ sampleHit "Streams are collections of data" 0.95 "how do streams work";
            sampleHit "The event loop" 0.8 "streams";
            sampleHit "Buffers hold raw bytes" 0.7 "how do streams work" ]).
Proof.
  split; [lia|]. split; [reflexivity|].
  apply (mergeResults_prefix sampleHits _ 2 4); [lia | reflexivity].
Defined.

Lemma mapM_combine (A B : Type) (f : A -> Result B) (l : list A) (r : list B)
      (x : A) (y : B) :
  mapM f l = Ok r -> In (x, y) (combine l r) -> f x = Ok y.
Proof.
  revert r. induction l as [|x0 l IH]; simpl; intros r; [intros _ []|].
  destruct (f x0) as [y0|] eqn:Hx; simpl; [|discriminate].
  destruct (mapM f l) as [ys|]; simpl; [|discriminate].
  intros [= <-]. simpl. intros [[= <- <-]|HIn]; [exact Hx|].
  now apply (IH ys).
Qed.

Section PointFacts.

Variable svc : Services.
Variable store : VectorStore.
Variable name : JSString.

Lemma wellEmbedded_app (l1 l2 : list Call) :
  wellEmbedded svc l1 -> wellEmbedded svc l2 -> wellEmbedded svc (l1 ++ l2).
Proof.
  intros H1 H2 points p HIn. rewrite upsertCalls_app in HIn.
  apply in_app_or in HIn as [HIn|HIn]; eauto.
Qed.

Lemma embedBatch_wellEmbedded (batch : list Document) (w w' : World)
      (points : list Point) (p : Point) :
  embedBatch svc store batch w = (Ok points, w') ->
  In p points ->
  getEmbeddings svc (JString (content p)) = Ok (vector p).
Proof.
  unfold embedBatch.
  destruct (mapM _ batch) as [embeddings|] eqn:E; [|discriminate].
  intros [= <- _] HIn.
  apply in_map_iff in HIn as ([n [doc embedding]] & <- & HIn). simpl.
  apply in_combine_r in HIn.
  exact (mapM_combine _ _ _ batch embeddings doc embedding E HIn).
Qed.

Lemma processBatch_wellEmbedded (batch : list Document) (w w' : World)
      (r : Result unit) :
  processBatch svc store name batch w = (r, w') ->
  exists log, calls w' = calls w ++ log /\ wellEmbedded svc log.
Proof.
  unfold processBatch, bindM, call.
  destruct (embedBatch svc store batch w) as [[points|e] w1] eqn:E.
  - pose proof (fun p => embedBatch_wellEmbedded batch w w1 points p E) as Hgood.
    apply embedBatch_ok in E as [Hcalls _].
    intros [= _ <-]. exists (batchCalls name points). simpl.
    split; [unfold batchCalls; now rewrite Hcalls, <- app_assoc|].
    intros pts p HIn Hp. rewrite upsertCalls_batchCalls in HIn.
    destruct HIn as [<-|[]]. now apply Hgood.
  - intros [= _ <-]. unfold embedBatch in E.
    destruct (mapM _ batch); inversion E; subst; simpl.
    eexists. split; [reflexivity|].
    intros pts p HIn. rewrite upsertCalls_documents in HIn. destruct HIn.
Qed.

Lemma batchLoop_wellEmbedded (documents : list Document) (fuel : nat) :
  forall (i : Z) (w w' : World) (r : Result unit),
    batchLoop svc store name fuel documents i w = Some (r, w') ->
    exists log, calls w' = calls w ++ log /\ wellEmbedded svc log.
Proof.
  induction fuel as [|fuel IH]; intros i w w' r; simpl; [discriminate|].
  destruct (i <? Z.of_nat (length documents))%Z.
  - destruct (processBatch svc store name _ w) as [[u|e] w1] eqn:EP;
      apply processBatch_wellEmbedded in EP as (log1 & Hcalls1 & Hgood1).
    + intros Hloop. apply IH in Hloop as (log2 & Hcalls2 & Hgood2).
      exists (log1 ++ log2). split; [now rewrite Hcalls2, Hcalls1, <- app_assoc|].
      now apply wellEmbedded_app.
    + intros [= <- <-]. eauto.
  - intros [= <- <-]. exists []. split; [now rewrite app_nil_r|].
    intros pts p [].
Qed.

(** X20. The indexing never mixes the documents of a batch up: in every
    upsert call it makes, on a successful or a failed run, each point holds a
    text together with the embedding that the embedding service returned for
    that very text. *)
Theorem addDocumentsToVectorStore_well_embedded
        (documents : list Document) (w w' : World) (r : Result unit) :
  addDocumentsToVectorStore svc store name documents w = Some (r, w') ->
  exists log,
    calls w' = calls w ++ log /\
    forall points p,
      In points (upsertCalls log) -> In p points ->
      getEmbeddings svc (JString (content p)) = Ok (vector p).
Proof.
  unfold addDocumentsToVectorStore.
  destruct (createCollectionIfNotExists_log store name w)
    as (r0 & w0 & log0 & -> & Hcalls0 & _ & Hupsert0).
  assert (Hgood0 : wellEmbedded svc log0)
    by (intros pts p HIn; rewrite Hupsert0 in HIn; destruct HIn).
  destruct r0 as [u|e].
  - intros Hloop. apply batchLoop_wellEmbedded in Hloop as (log & Hcalls & Hgood).
    exists (log0 ++ log). split; [now rewrite Hcalls, Hcalls0, <- app_assoc|].
    now apply wellEmbedded_app.
  - intros [= <- <-]. eauto.
Qed.

End PointFacts.

Lemma addDocumentsToVectorStore_well_embedded_witness :
  exists w',
    addDocumentsToVectorStore twoVariationServices sampleStore
      (str "learning_langchain") sampleDocuments emptyWorld = Some (Ok tt, w') /\
    exists log,
      calls w' = calls emptyWorld ++ log /\
      forall points p,
        In points (upsertCalls log) -> In p points ->
        getEmbeddings twoVariationServices (JString (content p)) = Ok (vector p).
Proof.
  eexists. split; [vm_compute; reflexivity|].
  apply (addDocumentsToVectorStore_well_embedded twoVariationServices sampleStore
           (str "learning_langchain") sampleDocuments emptyWorld _ (Ok tt)).
  vm_compute. reflexivity.
Defined.
